(** * scil_search_keywords: keyword search over a directory of scripts

    A shallow embedding of [scripts/scil_search_keywords.py].

    Python strings are modelled as lists of characters ([list ascii]).
    The model covers ASCII text: [str_lower] maps 'A'..'Z' to 'a'..'z'
    and leaves every other character unchanged, which is what Python's
    [str.lower] and the [re.IGNORECASE] flag do on ASCII input.  Every
    concrete input used below is ASCII.

    Library calls ([re.sub], [sorted], [numpy.all], [ast.get_docstring],
    [inspect.cleandoc], [str.expandtabs], ...) are modelled by functions
    that follow the behaviour of the CPython implementation; the file
    system, the parser and the help subprocesses are inputs of the run
    ([env]). *)

From Stdlib Require Import String.
From Stdlib Require Import List Bool Arith NArith Lia Ascii.
From Stdlib Require Import Permutation Sorted.
Import ListNotations.

(** ** Strings *)

Definition str := list ascii.

(** A string literal of the source. *)
Definition lit (s : String.string) : str := String.list_ascii_of_string s.

(** [c.lower()] on one ASCII character. *)
Definition lower_char (c : ascii) : ascii :=
  let n := N_of_ascii c in
  if ((65 <=? n) && (n <=? 90))%N then ascii_of_N (n + 32) else c.

(** [s.lower()] *)
Definition str_lower (s : str) : str := map lower_char s.

(** [s.startswith(p)] *)
Fixpoint startswith (p s : str) : bool :=
  match p, s with
  | [], _ => true
  | _ :: _, [] => false
  | a :: p', b :: s' => Ascii.eqb a b && startswith p' s'
  end.

(** [needle in hay] on strings: substring search. *)
Fixpoint str_contains (needle hay : str) : bool :=
  startswith needle hay
  || match hay with
     | [] => false
     | _ :: hay' => str_contains needle hay'
     end.

(** [sep.join(parts)] *)
Fixpoint str_join (sep : str) (parts : list str) : str :=
  match parts with
  | [] => []
  | [p] => p
  | p :: rest => p ++ sep ++ str_join sep rest
  end.

(** [x or default] on a string: the empty string is falsy. *)
Definition str_or (x default : str) : str :=
  match x with
  | [] => default
  | _ => x
  end.

(** ** Module constants (lines 18-21) *)

Definition ESC : ascii := ascii_of_N 27.
Definition RED : str := ESC :: lit "[31m".
Definition BOLD : str := ESC :: lit "[1m".
Definition END_COLOR : str := ESC :: lit "[0m".
Definition SPACING : str := lit "==================".

(** ** _test_matching_keywords (lines 80-105) *)

(** [numpy.all] on a list of booleans. *)
Definition np_all (l : list bool) : bool := forallb (fun b => b) l.

(** The inner loop (lines 98-102): [key_match] starts False and becomes
    True at the first text that contains the key. *)
Fixpoint key_match (key : str) (texts : list str) : bool :=
  match texts with
  | [] => false
  | text :: rest =>
      if str_contains (str_lower key) (str_lower text) then true
      else key_match key rest
  end.

Definition _test_matching_keywords (keywords texts : list str) : bool :=
  np_all (map (fun key => key_match key texts) keywords).

(** ** The substitution [regex.sub(new_key, text)] (lines 45-46, 66-70)

    Each keyword is compiled to the pattern ['(' + re.escape(kw) + ')']
    with [re.IGNORECASE]: one group that matches the keyword literally,
    letter case ignored. *)

Inductive pattern := IgnoreCaseLiteral (kw : str).

Definition re_compile (kw : str) : pattern := IgnoreCaseLiteral kw.

(** Does the pattern match at the start of [s]? *)
Fixpoint match_here (kw s : str) : bool :=
  match kw, s with
  | [], _ => true
  | _ :: _, [] => false
  | a :: kw', b :: s' =>
      Ascii.eqb (lower_char a) (lower_char b) && match_here kw' s'
  end.

(** The replacement template [new_key] (line 66) expanded for the text
    [m] captured by group 1. *)
Definition new_key (m : str) : str := RED ++ BOLD ++ m ++ END_COLOR.

(** The scanning loop of [re.sub]: at each position, a match is replaced
    and the scan resumes after it; otherwise one character is copied.
    An empty match (empty keyword) is replaced too, after which one
    character is copied so that the scan advances. *)
Fixpoint sub_loop (fuel : nat) (kw s : str) : str :=
  match fuel with
  | 0 => []
  | S fuel' =>
      if match_here kw s then
        let m := firstn (length kw) s in
        let rest := skipn (length kw) s in
        new_key m ++
        match m with
        | [] => match rest with
                | [] => []
                | c :: r => c :: sub_loop fuel' kw r
                end
        | _ :: _ => sub_loop fuel' kw rest
        end
      else
        match s with
        | [] => []
        | c :: r => c :: sub_loop fuel' kw r
        end
  end.

(** Every iteration consumes a character or ends the scan, so
    [length s + 1] iterations are enough (see [re_sub_match],
    [re_sub_empty_keyword] and [re_sub_copy]). *)
Definition re_sub (p : pattern) (s : str) : str :=
  match p with
  | IgnoreCaseLiteral kw => sub_loop (S (length s)) kw s
  end.

(** The loop of lines 68-70 on one text. *)
Definition highlight (kw_subs : list pattern) (text : str) : str :=
  fold_left (fun t regex => re_sub regex t) kw_subs text.


(** ** [sorted] on the globbed paths (line 48)

    All paths share the parent directory, so POSIX paths compare by
    file name, character code by character code. *)

Fixpoint str_leb (a b : str) : bool :=
  match a, b with
  | [], _ => true
  | _ :: _, [] => false
  | x :: a', y :: b' =>
      if (N_of_ascii x <? N_of_ascii y)%N then true
      else if (N_of_ascii x =? N_of_ascii y)%N then str_leb a' b'
      else false
  end.

Definition str_le (a b : str) : Prop := str_leb a b = true.

Fixpoint insert (x : str) (l : list str) : list str :=
  match l with
  | [] => [x]
  | y :: l' => if str_leb x y then x :: l else y :: insert x l'
  end.

(** A stable sort; on a total order its result is the one of Python's
    [sorted]. *)
Fixpoint sorted (l : list str) : list str :=
  match l with
  | [] => []
  | x :: l' => insert x (sorted l')
  end.

(** ** [inspect.cleandoc], which [ast.get_docstring] applies by default *)

Definition TAB : ascii := ascii_of_N 9.
Definition LF : ascii := ascii_of_N 10.
Definition CR : ascii := ascii_of_N 13.
Definition SPACE : ascii := ascii_of_N 32.

(** [str.isspace] on one ASCII character. *)
Definition is_space (c : ascii) : bool :=
  let n := N_of_ascii c in
  (((9 <=? n) && (n <=? 13)) || ((28 <=? n) && (n <=? 32)))%N.

(** [s.lstrip()] *)
Fixpoint lstrip (s : str) : str :=
  match s with
  | [] => []
  | c :: s' => if is_space c then lstrip s' else s
  end.

(** [s.expandtabs()] (tab size 8), from column [col]. *)
Fixpoint expandtabs_from (col : nat) (s : str) : str :=
  match s with
  | [] => []
  | c :: s' =>
      if Ascii.eqb c TAB then
        let incr := 8 - col mod 8 in
        repeat SPACE incr ++ expandtabs_from (col + incr) s'
      else
        c :: expandtabs_from
               (if Ascii.eqb c LF || Ascii.eqb c CR then 0 else S col) s'
  end.

Definition expandtabs (s : str) : str := expandtabs_from 0 s.

(** [s.split('\n')]: never empty. *)
Fixpoint split_lines (s : str) : list str :=
  match s with
  | [] => [[]]
  | c :: s' =>
      if Ascii.eqb c LF then [] :: split_lines s'
      else match split_lines s' with
           | [] => [[c]]
           | l :: ls => (c :: l) :: ls
           end
  end.

(** Indentation of a line that is not blank. *)
Definition indent_of (line : str) : option nat :=
  let content := length (lstrip line) in
  if content =? 0 then None else Some (length line - content).

(** Smallest indentation of the non-blank lines after the first;
    [None] stands for the initial [sys.maxsize]. *)
Definition margin_of (lines : list str) : option nat :=
  fold_left
    (fun margin line =>
       match indent_of line, margin with
       | None, _ => margin
       | Some i, None => Some i
       | Some i, Some m => Some (Nat.min m i)
       end)
    (tl lines) None.

Fixpoint drop_leading_blank (lines : list str) : list str :=
  match lines with
  | [] :: rest => drop_leading_blank rest
  | _ => lines
  end.

Definition drop_trailing_blank (lines : list str) : list str :=
  rev (drop_leading_blank (rev lines)).

Definition inspect_cleandoc (doc : str) : str :=
  let lines := split_lines (expandtabs doc) in
  let margin := margin_of lines in
  let lines :=
    match lines with
    | [] => []
    | first :: others =>
        lstrip first ::
        match margin with
        | None => others
        | Some m => map (skipn m) others
        end
    end in
  str_join [LF] (drop_leading_blank (drop_trailing_blank lines)).

(** ** The part of Python's abstract syntax that [ast.get_docstring]
    inspects *)

Inductive constant :=
| Str (s : str)
| OtherConstant.

Inductive expr :=
| Constant (value : constant)
| OtherExpr.

Inductive stmt :=
| Expr (value : expr)
| OtherStmt.

Record Module_ := { body : list stmt }.

(** The string constant that opens the module body, as written. *)
Definition raw_docstring (node : Module_) : option str :=
  match body node with
  | Expr (Constant (Str text)) :: _ => Some text
  | _ => None
  end.

(** [ast.get_docstring(node)], with its default [clean=True]. *)
Definition ast_get_docstring (node : Module_) : option str :=
  match raw_docstring node with
  | Some text => Some (inspect_cleandoc text)
  | None => None
  end.

(** ** Exceptions, the environment of a run, and the monad of [main] *)

Inductive exn :=
| OSError
| SyntaxError
| UnicodeDecodeError
| SystemExit (code : nat).

Inductive result (A : Type) :=
| Ok (a : A)
| Raise (e : exn).

Arguments Ok {A} a.
Arguments Raise {A} e.

(** What a run reads from outside: the directory listing in the order
    the file system enumerates it, the content of each file, the parser,
    and what each script prints when run with [--help].  Scripts are
    identified by their file name. *)
Record env := {
  glob_py : list str;
  read_file : str -> result str;
  ast_parse : str -> result Module_;
  popen_help : str -> result str
}.

(** The mutable state of [main]: what was printed so far and the local
    list [matches].  An exception leaves the state as it is: what was
    printed stays printed. *)
Record state := { stdout : str; matches : list str }.

Definition init : state := {| stdout := []; matches := [] |}.

Definition M (A : Type) : Type := state -> result A * state.

Definition ret {A} (a : A) : M A := fun st => (Ok a, st).

Definition bind {A B} (m : M A) (k : A -> M B) : M B :=
  fun st =>
    match m st with
    | (Ok a, st') => k a st'
    | (Raise e, st') => (Raise e, st')
    end.

Definition lift {A} (r : result A) : M A := fun st => (r, st).

Notation "x <- m ;; k" := (bind m (fun x => k))
  (at level 61, m at next level, right associativity).
Notation "m ;;; k" := (bind m (fun _ => k))
  (at level 61, right associativity).

(** [print(a, b, ...)]: the arguments separated by one space, then a
    newline. *)
Definition print (args : list str) : M unit :=
  fun st =>
    (Ok tt, {| stdout := stdout st ++ str_join [SPACE] args ++ [LF];
               matches := matches st |}).

(** [matches.append(filename)] *)
Definition matches_append (filename : str) : M unit :=
  fun st =>
    (Ok tt, {| stdout := stdout st; matches := matches st ++ [filename] |}).

Definition get_matches : M (list str) := fun st => (Ok (matches st), st).

(** A [for] loop whose body may raise. *)
Fixpoint for_each {A} (l : list A) (body : A -> M unit) : M unit :=
  match l with
  | [] => ret tt
  | x :: l' => body x ;;; for_each l' body
  end.

(** ** _build_arg_parser (lines 24-34)

    The command line is taken as already split by [argparse] into its
    positional words and the presence of [--search_parser]; the way
    [argparse] tokenises options is outside the model.  [nargs='+']
    makes [parse_args] exit with status 2 when no positional word is
    given. *)

Record cmdline := { positionals : list str; search_parser_given : bool }.

Record Namespace := { keywords : list str; search_parser : bool }.

Definition parse_args (argv : cmdline) : result Namespace :=
  match positionals argv with
  | [] => Raise (SystemExit 2)
  | kws => Ok {| keywords := kws; search_parser := search_parser_given argv |}
  end.

(** ** _get_docstring (lines 108-125) *)

Definition _get_docstring (w : env) (script : str) : result str :=
  match read_file w script with
  | Raise e => Raise e
  | Ok file_contents =>
      match ast_parse w file_contents with
      | Raise e => Raise e
      | Ok module =>
          Ok match ast_get_docstring module with
             | Some docstring => docstring
             | None => []
             end
      end
  end.

(** ** main (lines 37-77) *)

(** Lines 51-57: the text searched for one script. *)
Definition extract (args : Namespace) (w : env) (script : str) : result str :=
  if search_parser args then popen_help w script
  else _get_docstring w script.

Section Main.

(** [regex.sub] is a parameter of the loop so that the data flow of
    the loop can be stated for any substitution; [main] is the loop
    with [re_sub]. *)
Variable regex_sub : pattern -> str -> str.

(** Lines 68-70. *)
Definition substitute (kw_subs : list pattern) (filename search_text : str)
  : str * str :=
  fold_left
    (fun '(filename, search_text) regex =>
       (regex_sub regex filename, regex_sub regex search_text))
    kw_subs (filename, search_text).

(** The body of the loop of line 48. *)
Definition loop_body (args : Namespace) (kw_subs : list pattern) (w : env)
    (script : str) : M unit :=
  let filename := script in
  search_text <- lift (extract args w script) ;;
  if negb (_test_matching_keywords (keywords args) [filename; search_text])
  then ret tt
  else
    matches_append filename ;;;
    let search_text := str_or search_text (lit "No docstring available!") in
    let '(filename, search_text) :=
      substitute kw_subs filename search_text in
    print [SPACING; filename; SPACING] ;;;
    print [search_text] ;;;
    print [SPACING; lit "End of " ++ filename; SPACING].

(** Lines 43-77: the run once the command line is parsed. *)
Definition search_with (args : Namespace) (w : env) : M unit :=
  let kw_subs := map re_compile (keywords args) in
  for_each (sorted (glob_py w)) (loop_body args kw_subs w) ;;;
  ms <- get_matches ;;
  match ms with
  | [] => print [lit "No results found!"]
  | _ => ret tt
  end.

Definition main_with (argv : cmdline) (w : env) : M unit :=
  args <- lift (parse_args argv) ;;
  search_with args w.

End Main.

Definition search : Namespace -> env -> M unit := search_with re_sub.

Definition main : cmdline -> env -> M unit := main_with re_sub.

(** A whole run: its outcome, its standard output and the final value of
    [matches]. *)
Definition run (argv : cmdline) (w : env) : result unit * state :=
  main argv w init.

(** ** Notions used to state the properties *)

(** The text extracted for a script (empty when extraction raised). *)
Definition text_of (args : Namespace) (w : env) (f : str) : str :=
  match extract args w f with
  | Ok t => t
  | Raise _ => []
  end.

(** The test of line 60 for a script. *)
Definition accepted (args : Namespace) (w : env) (f : str) : bool :=
  _test_matching_keywords (keywords args) [f; text_of args w f].

(** The scripts the loop goes through: those before the first one whose
    extraction raises. *)
Fixpoint processed (args : Namespace) (w : env) (l : list str) : list str :=
  match l with
  | [] => []
  | f :: l' =>
      match extract args w f with
      | Ok _ => f :: processed args w l'
      | Raise _ => []
      end
  end.

Fixpoint first_error (args : Namespace) (w : env) (l : list str) : option exn :=
  match l with
  | [] => None
  | f :: l' =>
      match extract args w f with
      | Ok _ => first_error args w l'
      | Raise e => Some e
      end
  end.

Definition PLACEHOLDER : str := lit "No docstring available!".
Definition NO_RESULTS : str := lit "No results found!".

(** What lines 72-74 print for an accepted script, given the file name
    and the text as they are after the substitutions. *)
Definition header_line (name : str) : str :=
  SPACING ++ [SPACE] ++ name ++ [SPACE] ++ SPACING.

Definition footer_line (name : str) : str :=
  SPACING ++ [SPACE] ++ (lit "End of " ++ name) ++ [SPACE] ++ SPACING.

Definition block_of (name text : str) : str :=
  header_line name ++ [LF] ++ text ++ [LF] ++ footer_line name ++ [LF].

Section Printed.

Variable regex_sub : pattern -> str -> str.

Definition subst_all (kws : list str) (t : str) : str :=
  fold_left (fun t regex => regex_sub regex t) (map re_compile kws) t.

(** The file name and the text body as printed for script [f]. *)
Definition printed_name_with (args : Namespace) (f : str) : str :=
  subst_all (keywords args) f.

Definition printed_text_with (args : Namespace) (w : env) (f : str) : str :=
  subst_all (keywords args) (str_or (text_of args w f) PLACEHOLDER).

Definition block_with (args : Namespace) (w : env) (f : str) : str :=
  block_of (printed_name_with args f) (printed_text_with args w f).

End Printed.

Definition printed_name := printed_name_with re_sub.
Definition printed_text := printed_text_with re_sub.
Definition block := block_with re_sub.

(** The reported scripts of a run, in the order of their blocks. *)
Definition reported (argv : cmdline) (w : env) : list str :=
  matches (snd (run argv w)).

(** [k] is a case-insensitive substring of [t]: some substring of [t]
    equals [k] up to letter case. *)
Definition ci_substring (k t : str) : Prop :=
  exists pre m post, t = pre ++ m ++ post /\ str_lower m = str_lower k.

(** The acceptance condition of the specification for one script. *)
Definition all_keywords_found (kws : list str) (filename text : str) : Prop :=
  forall k, In k kws -> ci_substring k filename \/ ci_substring k text.

(** [kw] matches at the start of [s], letter case ignored. *)
Definition ci_prefix (kw s : str) : Prop :=
  exists m rest, s = m ++ rest /\ str_lower m = str_lower kw.

(** [kw] occurs in [t] at offset [i], letter case ignored. *)
Definition occurs_at (kw t : str) (i : nat) : Prop :=
  i <= length t /\ ci_prefix kw (skipn i t).

(** A text with some of its pieces wrapped in the marker pair. *)
Inductive seg :=
| Plain (c : ascii)
| Hit (m : str).

(** The text with the markers. *)
Fixpoint render (segs : list seg) : str :=
  match segs with
  | [] => []
  | Plain c :: rest => c :: render rest
  | Hit m :: rest => RED ++ BOLD ++ m ++ END_COLOR ++ render rest
  end.

(** The text without the markers. *)
Fixpoint erase (segs : list seg) : str :=
  match segs with
  | [] => []
  | Plain c :: rest => c :: erase rest
  | Hit m :: rest => m ++ erase rest
  end.

(** Is the character at offset [j] of the text inside a wrapped piece? *)
Fixpoint wrapped_at (segs : list seg) (j : nat) : bool :=
  match segs with
  | [] => false
  | Plain _ :: rest =>
      match j with
      | 0 => false
      | S j' => wrapped_at rest j'
      end
  | Hit m :: rest =>
      if j <? length m then true else wrapped_at rest (j - length m)
  end.

(** Number of wrapped pieces. *)
Fixpoint hits (segs : list seg) : nat :=
  match segs with
  | [] => 0
  | Plain _ :: rest => hits rest
  | Hit _ :: rest => S (hits rest)
  end.

(** Every wrapped piece is a keyword up to letter case. *)
Definition hits_are_keywords (kws : list str) (segs : list seg) : Prop :=
  Forall (fun sg =>
            match sg with
            | Plain _ => True
            | Hit m => exists kw, In kw kws /\ str_lower m = str_lower kw
            end) segs.


(** What one substitution pass does: as above, but an occurrence is only
    sure to begin inside a wrapped piece (the scan goes left to right
    and resumes after each match). *)
Definition leftmost_occurrences_wrapped (kw t out : str) : Prop :=
  exists segs,
    out = render segs /\ erase segs = t /\ hits_are_keywords [kw] segs /\
    forall i, occurs_at kw t i -> wrapped_at segs i = true.

(** A docstring on one line, without tab and without leading blank. *)
Definition plain_one_line (d : str) : Prop :=
  Forall (fun c => c <> LF /\ c <> TAB) d /\ lstrip d = d.

(** An extraction error for script [f]: reading or parsing the file in
    fast mode, running the help subprocess in slow mode. *)
Definition extraction_raises (args : Namespace) (w : env) (f : str) (e : exn)
  : Prop :=
  if search_parser args then popen_help w f = Raise e
  else read_file w f = Raise e \/
       exists c, read_file w f = Ok c /\ ast_parse w c = Raise e.

(** The same files, the same parser and the same subprocesses, listed in
    another order. *)
Definition with_listing (w : env) (l : list str) : env :=
  {| glob_py := l;
     read_file := read_file w;
     ast_parse := ast_parse w;
     popen_help := popen_help w |}.

(** ** Notions used for further properties *)

(** Two strings equal up to letter case. *)
Definition same_up_to_case (a b : str) : Prop := str_lower a = str_lower b.

(** The command line with the given keywords and mode. *)
Definition cmd (kws : list str) (mode : bool) : cmdline :=
  {| positionals := kws; search_parser_given := mode |}.

Definition starts_with_newline (d : str) : Prop := exists r, d = LF :: r.

Definition ends_with_newline (d : str) : Prop := exists r, d = r ++ [LF].

(** ** Concrete environments *)

Definition str_eqb (a b : str) : bool :=
  if list_eq_dec ascii_dec a b then true else false.

Fixpoint lookup {A} (k : str) (table : list (str * A)) : option A :=
  match table with
  | [] => None
  | (k', v) :: rest => if str_eqb k k' then Some v else lookup k rest
  end.

(** An environment given by tables: the content of each file, the syntax
    tree of each content (a content without entry does not parse) and
    the help text of each script. *)
Definition table_env (listing : list str) (files : list (str * str))
    (trees : list (str * Module_)) (helps : list (str * str)) : env :=
  {| glob_py := listing;
     read_file := fun f =>
       match lookup f files with Some c => Ok c | None => Raise OSError end;
     ast_parse := fun c =>
       match lookup c trees with Some m => Ok m | None => Raise SyntaxError end;
     popen_help := fun f =>
       match lookup f helps with Some h => Ok h | None => Ok [] end |}.

Definition with_docstring (d : str) : Module_ :=
  {| body := [Expr (Constant (Str d)); OtherStmt] |}.

Definition without_docstring : Module_ := {| body := [OtherStmt] |}.

(** Three scripts, enumerated out of order; one has a docstring. *)
Definition demo_files : list (str * str) :=
  [ (lit "scil_b.py", lit "import os");
    (lit "scil_denoise_image.py", lit "'''Apply NLMeans denoise.'''");
    (lit "scil_a.py", lit "import os") ].

Definition demo_trees : list (str * Module_) :=
  [ (lit "import os", without_docstring);
    (lit "'''Apply NLMeans denoise.'''",
     with_docstring (lit "Apply NLMeans denoise.")) ].

Definition demo_helps : list (str * str) :=
  [ (lit "scil_a.py", lit "usage: scil_a.py [-h]");
    (lit "scil_b.py", lit "usage: scil_b.py [-h]");
    (lit "scil_denoise_image.py", lit "usage: scil_denoise_image.py [-h]") ].

Definition demo_env : env :=
  table_env [lit "scil_b.py"; lit "scil_denoise_image.py"; lit "scil_a.py"]
    demo_files demo_trees demo_helps.

(** The same directory with one more script, which does not parse. *)
Definition broken_env : env :=
  table_env
    [lit "scil_b.py"; lit "scil_denoise_image.py"; lit "scil_a.py";
     lit "scil_broken.py"]
    ((lit "scil_broken.py", lit "def (") :: demo_files) demo_trees demo_helps.

(** The directory of [demo_env] on a narrower terminal: the files are
    unchanged, the help texts are wrapped differently. *)
Definition narrow_helps : list (str * str) :=
  [ (lit "scil_a.py", lit "usage: scil_a.py" ++ [LF] ++ lit "       [-h]");
    (lit "scil_b.py", lit "usage: scil_b.py" ++ [LF] ++ lit "       [-h]");
    (lit "scil_denoise_image.py",
     lit "usage: scil_denoise_image.py" ++ [LF] ++ lit "       [-h]") ].

Definition narrow_env : env :=
  table_env [lit "scil_b.py"; lit "scil_denoise_image.py"; lit "scil_a.py"]
    demo_files demo_trees narrow_helps.

(** A script without docstring whose name contains a word of the
    placeholder. *)
Definition doc_env : env :=
  table_env [lit "scil_doc.py"] [(lit "scil_doc.py", lit "import os")]
    demo_trees [].

(** A script whose docstring is written as the one of this program: the
    text on the line after the opening quotes, the closing quotes on a
    line of their own. *)
Definition multiline_doc : str := [LF] ++ lit "Search through scripts." ++ [LF].

Definition multiline_src : str := lit "'''" ++ multiline_doc ++ lit "'''".

Definition multiline_env : env :=
  table_env [lit "scil_search.py"] [(lit "scil_search.py", multiline_src)]
    [(multiline_src, with_docstring multiline_doc)] [].

(** A script whose docstring holds a keyword in another letter case. *)
Definition dti_env : env :=
  table_env [lit "scil_metrics.py"]
    [(lit "scil_metrics.py", lit "'''Compute dti metrics.'''")]
    [(lit "'''Compute dti metrics.'''",
      with_docstring (lit "Compute dti metrics."))] [].

Definition fast (kws : list str) : cmdline :=
  {| positionals := kws; search_parser_given := false |}.

Definition slow (kws : list str) : cmdline :=
  {| positionals := kws; search_parser_given := true |}.

(** * Properties *)

(** ** The model on the scenarios of the specification *)

Example scenario_keyword_in_name_and_docstring :
  stdout (snd (run (fast [lit "denoise"]) demo_env)) =
  block_of (lit "scil_" ++ new_key (lit "denoise") ++ lit "_image.py")
           (lit "Apply NLMeans " ++ new_key (lit "denoise") ++ lit ".").
Proof. vm_compute. reflexivity. Qed.

Example scenario_original_casing_is_kept :
  stdout (snd (run (fast [lit "DTI"]) dti_env)) =
  block_of (lit "scil_metrics.py")
           (lit "Compute " ++ new_key (lit "dti") ++ lit " metrics.").
Proof. vm_compute. reflexivity. Qed.

Example scenario_match_by_name_alone :
  stdout (snd (run (fast [lit "scil_a"]) demo_env)) =
  block_of (new_key (lit "scil_a") ++ lit ".py") PLACEHOLDER.
Proof. vm_compute. reflexivity. Qed.

Example scenario_empty_keyword :
  re_sub (re_compile []) (lit "ab") =
  new_key [] ++ lit "a" ++ new_key [] ++ lit "b" ++ new_key [].
Proof. vm_compute. reflexivity. Qed.

Example scenario_second_pass_rewrites_markers :
  printed_name {| keywords := [lit "scil"; lit "1"]; search_parser := false |}
    (lit "scil_t1.py") =
  [ESC] ++ lit "[3" ++ new_key (lit "1") ++ lit "m" ++
  [ESC] ++ lit "[" ++ new_key (lit "1") ++ lit "m" ++
  lit "scil" ++ END_COLOR ++ lit "_t" ++ new_key (lit "1") ++ lit ".py".
Proof. vm_compute. reflexivity. Qed.

(** ** Substring search *)

Lemma startswith_iff (p s : str) :
  startswith p s = true <-> exists post, s = p ++ post.
Proof.
  revert s; induction p as [|a p IH]; intros s; simpl.
  - split; [intros _; now exists s | reflexivity].
  - destruct s as [|b s].
    + split; [discriminate | intros [post H]; discriminate].
    + rewrite andb_true_iff, Ascii.eqb_eq, IH. split.
      * intros [-> [post ->]]. now exists post.
      * intros [post H]. injection H as -> ->. split; [reflexivity | now exists post].
Qed.

Lemma str_contains_iff (needle hay : str) :
  str_contains needle hay = true <-> exists pre post, hay = pre ++ needle ++ post.
Proof.
  induction hay as [|c hay IH]; simpl; rewrite orb_true_iff, startswith_iff.
  - split.
    + intros [[post H] | H]; [|discriminate]. now exists [], post.
    + intros [pre [post H]]. left.
      destruct pre; [now exists post | discriminate].
  - rewrite IH. split.
    + intros [[post H] | [pre [post H]]].
      * now exists [], post.
      * exists (c :: pre), post. simpl. now rewrite H.
    + intros [[|a pre] [post H]].
      * left. now exists post.
      * right. injection H as -> ->. now exists pre, post.
Qed.

Lemma str_contains_lower_iff (k t : str) :
  str_contains (str_lower k) (str_lower t) = true <-> ci_substring k t.
Proof.
  rewrite str_contains_iff. unfold ci_substring, str_lower. split.
  - intros [pre [post H]].
    apply map_eq_app in H as [pre' [r [-> [_ H]]]].
    apply map_eq_app in H as [m [post' [-> [Hm _]]]].
    now exists pre', m, post'.
  - intros [pre [m [post [-> Hm]]]].
    exists (map lower_char pre), (map lower_char post).
    now rewrite !map_app, Hm.
Qed.

Lemma key_match_iff (key : str) (texts : list str) :
  key_match key texts = true <-> exists text, In text texts /\ ci_substring key text.
Proof.
  induction texts as [|t texts IH]; simpl.
  - split; [discriminate | intros [? [[] _]]].
  - destruct (str_contains (str_lower key) (str_lower t)) eqn:E.
    + split; [intros _ | reflexivity].
      exists t. split; [now left | now apply str_contains_lower_iff].
    + rewrite IH. split.
      * intros [x [Hin Hx]]. exists x. split; [now right | assumption].
      * intros [x [[<- | Hin] Hx]].
        -- apply str_contains_lower_iff in Hx. congruence.
        -- now exists x.
Qed.

Lemma test_matching_keywords_iff (keywords texts : list str) :
  _test_matching_keywords keywords texts = true <->
  forall k, In k keywords -> exists text, In text texts /\ ci_substring k text.
Proof.
  unfold _test_matching_keywords, np_all.
  rewrite forallb_forall. split.
  - intros H k Hk. apply key_match_iff. apply H.
    now apply (in_map (fun key => key_match key texts)).
  - intros H b Hb. apply in_map_iff in Hb as [k [<- Hk]].
    apply key_match_iff. now apply H.
Qed.

Lemma test_two_texts_iff (kws : list str) (filename text : str) :
  _test_matching_keywords kws [filename; text] = true <->
  all_keywords_found kws filename text.
Proof.
  rewrite test_matching_keywords_iff. unfold all_keywords_found.
  split; intros H k Hk; specialize (H k Hk).
  - destruct H as [t [[<- | [<- | []]] Ht]]; [now left | now right].
  - destruct H as [H | H]; [exists filename | exists text]; simpl; auto.
Qed.

(** ** The loop of [main] in closed form *)

Section Loop.

Variable regex_sub : pattern -> str -> str.
Variable args : Namespace.
Variable w : env.

Lemma substitute_split (kw_subs : list pattern) (f t : str) :
  substitute regex_sub kw_subs f t =
  (fold_left (fun t regex => regex_sub regex t) kw_subs f,
   fold_left (fun t regex => regex_sub regex t) kw_subs t).
Proof.
  unfold substitute. revert f t.
  induction kw_subs as [|r rs IH]; intros f t; simpl; [reflexivity | apply IH].
Qed.

Lemma loop_body_ok (f t : str) (st : state) :
  extract args w f = Ok t ->
  loop_body regex_sub args (map re_compile (keywords args)) w f st =
  (Ok tt,
   if accepted args w f
   then {| stdout := stdout st ++ block_with regex_sub args w f;
           matches := matches st ++ [f] |}
   else st).
Proof.
  intros E. unfold loop_body, accepted, text_of, bind, lift. rewrite E.
  destruct (_test_matching_keywords (keywords args) [f; t]); simpl; [|reflexivity].
  rewrite substitute_split.
  unfold print, matches_append, bind, block_with, block_of, header_line,
    footer_line, printed_name_with, printed_text_with, subst_all, text_of.
  rewrite E. simpl. f_equal. f_equal.
  rewrite <- !app_assoc. simpl. rewrite <- !app_assoc. reflexivity.
Qed.

Lemma loop_body_raise (f : str) (e : exn) (st : state) :
  extract args w f = Raise e ->
  loop_body regex_sub args (map re_compile (keywords args)) w f st = (Raise e, st).
Proof.
  intros E. unfold loop_body, bind, lift. now rewrite E.
Qed.

Lemma for_each_closed_form (l : list str) (st : state) :
  for_each l (loop_body regex_sub args (map re_compile (keywords args)) w) st =
  (match first_error args w l with
   | None => Ok tt
   | Some e => Raise e
   end,
   {| stdout := stdout st ++
                concat (map (block_with regex_sub args w)
                            (filter (accepted args w) (processed args w l)));
      matches := matches st ++ filter (accepted args w) (processed args w l) |}).
Proof.
  revert st. induction l as [|f l IH]; intros st;
    cbn [for_each first_error processed].
  - unfold ret. cbn [filter map concat]. rewrite !app_nil_r. now destruct st.
  - unfold bind at 1. destruct (extract args w f) as [t|e] eqn:E.
    + rewrite loop_body_ok with (t := t) by exact E. rewrite IH.
      cbn [filter]. destruct (accepted args w f) eqn:A; [|reflexivity].
      cbn [map concat stdout matches]. now rewrite <- !app_assoc.
    + rewrite loop_body_raise with (e := e) by exact E.
      cbn [filter map concat]. rewrite !app_nil_r. now destruct st.
Qed.

End Loop.

(** ** The order on file names and [sorted] *)

Lemma str_le_refl (a : str) : str_le a a.
Proof.
  unfold str_le. induction a as [|x a IH]; simpl; [reflexivity|].
  now rewrite N.ltb_irrefl, N.eqb_refl.
Qed.

Lemma str_le_total (a b : str) : str_le a b \/ str_le b a.
Proof.
  unfold str_le. revert b; induction a as [|x a IH]; intros [|y b]; simpl; auto.
  destruct (N.ltb_spec (N_of_ascii x) (N_of_ascii y)); auto.
  destruct (N.ltb_spec (N_of_ascii y) (N_of_ascii x)); auto.
  assert (E : N_of_ascii x = N_of_ascii y) by lia.
  rewrite E, N.eqb_refl. apply IH.
Qed.

Lemma str_le_antisym (a b : str) : str_le a b -> str_le b a -> a = b.
Proof.
  unfold str_le. revert b; induction a as [|x a IH]; intros [|y b]; simpl;
    try discriminate; auto.
  destruct (N.ltb_spec (N_of_ascii x) (N_of_ascii y));
    destruct (N.ltb_spec (N_of_ascii y) (N_of_ascii x)); try lia.
  - destruct (N.eqb_spec (N_of_ascii y) (N_of_ascii x)); [lia | discriminate].
  - destruct (N.eqb_spec (N_of_ascii x) (N_of_ascii y)); [|discriminate].
    intros _ _. exfalso. lia.
  - destruct (N.eqb_spec (N_of_ascii x) (N_of_ascii y)) as [E|]; [|discriminate].
    rewrite E, N.eqb_refl. intros H1 H2. f_equal.
    + rewrite <- (ascii_N_embedding x), <- (ascii_N_embedding y). now rewrite E.
    + now apply IH.
Qed.

Lemma str_le_trans (a b c : str) : str_le a b -> str_le b c -> str_le a c.
Proof.
  unfold str_le. revert b c; induction a as [|x a IH]; intros [|y b] [|z c]; simpl;
    try discriminate; auto.
  destruct (N.ltb_spec (N_of_ascii x) (N_of_ascii y));
    destruct (N.ltb_spec (N_of_ascii y) (N_of_ascii z));
    destruct (N.ltb_spec (N_of_ascii x) (N_of_ascii z)); try lia; auto.
  - destruct (N.eqb_spec (N_of_ascii y) (N_of_ascii z)); [lia | discriminate].
  - destruct (N.eqb_spec (N_of_ascii x) (N_of_ascii y)); [lia | discriminate].
  - destruct (N.eqb_spec (N_of_ascii x) (N_of_ascii y)); [|discriminate].
    destruct (N.eqb_spec (N_of_ascii y) (N_of_ascii z)); [|discriminate].
    destruct (N.eqb_spec (N_of_ascii x) (N_of_ascii z)); [|lia].
    apply IH.
Qed.

Lemma insert_perm (x : str) (l : list str) : Permutation (x :: l) (insert x l).
Proof.
  induction l as [|y l IH]; simpl; [reflexivity|].
  destruct (str_leb x y); [reflexivity|].
  rewrite perm_swap. now apply perm_skip.
Qed.

Lemma sorted_perm (l : list str) : Permutation l (sorted l).
Proof.
  induction l as [|x l IH]; simpl; [constructor|].
  rewrite <- insert_perm. now apply perm_skip.
Qed.

Lemma insert_sorted (x : str) (l : list str) :
  StronglySorted str_le l -> StronglySorted str_le (insert x l).
Proof.
  induction 1 as [|y l Hs IH Hy]; simpl.
  - repeat constructor.
  - destruct (str_leb x y) eqn:E.
    + constructor; [now constructor|].
      constructor; [exact E|].
      eapply Forall_impl; [|exact Hy]. intros z. now apply str_le_trans.
    + constructor; [exact IH|].
      eapply Permutation_Forall; [apply insert_perm|].
      constructor; [|exact Hy].
      destruct (str_le_total x y) as [H|H]; [unfold str_le in H; congruence | exact H].
Qed.

Lemma sorted_sorted (l : list str) : StronglySorted str_le (sorted l).
Proof.
  induction l as [|x l IH]; simpl; [constructor | now apply insert_sorted].
Qed.

(** A list has one sorted arrangement only. *)
Lemma sorted_unique (l1 l2 : list str) :
  Permutation l1 l2 ->
  StronglySorted str_le l1 -> StronglySorted str_le l2 -> l1 = l2.
Proof.
  revert l2. induction l1 as [|x l1 IH]; intros l2 P S1 S2.
  - apply Permutation_nil in P. now subst.
  - destruct l2 as [|y l2]; [apply Permutation_sym, Permutation_nil in P; discriminate|].
    apply StronglySorted_inv in S1 as [S1 F1].
    apply StronglySorted_inv in S2 as [S2 F2].
    assert (x = y) as ->.
    { assert (Hx : In x (y :: l2)) by (eapply Permutation_in; [exact P | now left]).
      assert (Hy : In y (x :: l1))
        by (eapply Permutation_in; [apply Permutation_sym; exact P | now left]).
      destruct Hx as [->|Hx]; [reflexivity|].
      destruct Hy as [->|Hy]; [reflexivity|].
      rewrite Forall_forall in F1, F2.
      apply str_le_antisym; [now apply F1 | now apply F2]. }
    f_equal. apply IH; [now apply Permutation_cons_inv in P | assumption | assumption].
Qed.

Lemma sorted_permutation_invariant (l1 l2 : list str) :
  Permutation l1 l2 -> sorted l1 = sorted l2.
Proof.
  intros P. apply sorted_unique; try apply sorted_sorted.
  rewrite <- !sorted_perm. exact P.
Qed.

Lemma StronglySorted_filter (P : str -> bool) (l : list str) :
  StronglySorted str_le l -> StronglySorted str_le (filter P l).
Proof.
  induction 1 as [|x l Hs IH Hx]; simpl; [constructor|].
  destruct (P x); [|exact IH].
  constructor; [exact IH|].
  rewrite Forall_forall in *. intros y Hy. apply Hx.
  now apply filter_In in Hy.
Qed.

(** ** The whole run in closed form *)

Section RunClosedForm.

Variable regex_sub : pattern -> str -> str.
Variable args : Namespace.
Variable w : env.

Lemma search_closed_form :
  search_with regex_sub args w init =
  let l := sorted (glob_py w) in
  let rep := filter (accepted args w) (processed args w l) in
  (match first_error args w l with
   | None => Ok tt
   | Some e => Raise e
   end,
   {| stdout := concat (map (block_with regex_sub args w) rep) ++
                match first_error args w l, rep with
                | None, [] => NO_RESULTS ++ [LF]
                | _, _ => []
                end;
      matches := rep |}).
Proof.
  unfold search_with, bind at 1. rewrite for_each_closed_form. simpl.
  destruct (first_error args w (sorted (glob_py w))).
  - now rewrite app_nil_r.
  - unfold bind, get_matches. simpl.
    destruct (filter (accepted args w) (processed args w (sorted (glob_py w)))).
    + reflexivity.
    + unfold ret. now rewrite app_nil_r.
Qed.

End RunClosedForm.

Lemma main_with_closed_form (regex_sub : pattern -> str -> str)
    (argv : cmdline) (w : env) :
  main_with regex_sub argv w init =
  match parse_args argv with
  | Ok args => search_with regex_sub args w init
  | Raise e => (Raise e, init)
  end.
Proof.
  unfold main_with, bind, lift. now destruct (parse_args argv).
Qed.

Lemma run_closed_form (argv : cmdline) (w : env) (args : Namespace) :
  parse_args argv = Ok args ->
  run argv w = search args w init.
Proof.
  intros E. unfold run, main. now rewrite main_with_closed_form, E.
Qed.

(** ** Facts on [processed] and [first_error] *)

Section Processed.

Variable args : Namespace.
Variable w : env.

Lemma processed_prefix (l : list str) :
  exists rest, l = processed args w l ++ rest.
Proof.
  induction l as [|f l [rest IH]]; simpl; [now exists []|].
  destruct (extract args w f).
  - exists rest. simpl. now rewrite <- IH.
  - now exists (f :: l).
Qed.

Lemma first_error_none_iff (l : list str) :
  first_error args w l = None <->
  forall f, In f l -> exists t, extract args w f = Ok t.
Proof.
  induction l as [|f l IH]; simpl.
  - split; [intros _ ? [] | reflexivity].
  - destruct (extract args w f) as [t|e] eqn:E.
    + rewrite IH. split.
      * intros H g [<-|Hg]; [now exists t | now apply H].
      * intros H g Hg. apply H. now right.
    + split; [discriminate|].
      intros H. destruct (H f (or_introl eq_refl)) as [t Ht]. congruence.
Qed.

Lemma first_error_none_processed (l : list str) :
  first_error args w l = None -> processed args w l = l.
Proof.
  induction l as [|f l IH]; simpl; [reflexivity|].
  destruct (extract args w f); [|discriminate].
  intros H. now rewrite IH.
Qed.

Lemma first_error_some (l : list str) (e : exn) :
  first_error args w l = Some e ->
  exists f rest,
    l = processed args w l ++ f :: rest /\ extract args w f = Raise e.
Proof.
  induction l as [|f l IH]; simpl; [discriminate|].
  destruct (extract args w f) as [t|e'] eqn:E.
  - intros H. destruct (IH H) as [g [rest [Hl Hg]]].
    exists g, rest. split; [simpl; now rewrite <- Hl | exact Hg].
  - intros [= ->]. now exists f, l.
Qed.

Lemma first_error_raise (l : list str) (f : str) (e : exn) :
  In f l -> extract args w f = Raise e -> exists e', first_error args w l = Some e'.
Proof.
  intros Hin E. destruct (first_error args w l) as [e'|] eqn:F; [now exists e'|].
  destruct (proj1 (first_error_none_iff l) F f Hin) as [t Ht]. congruence.
Qed.

Lemma processed_ok (l : list str) (f : str) :
  In f (processed args w l) -> exists t, extract args w f = Ok t.
Proof.
  induction l as [|g l IH]; simpl; [intros []|].
  destruct (extract args w g) as [t|e] eqn:E; [|intros []].
  intros [<-|H]; [now exists t | now apply IH].
Qed.

Lemma processed_sorted (l : list str) :
  StronglySorted str_le l -> StronglySorted str_le (processed args w l).
Proof.
  induction 1 as [|x l Hs IH Hx]; simpl; [constructor|].
  destruct (extract args w x); [|constructor].
  constructor; [exact IH|].
  rewrite Forall_forall in *. intros y Hy. apply Hx.
  destruct (processed_prefix l) as [rest Hr]. rewrite Hr.
  apply in_or_app. now left.
Qed.

End Processed.

(** ** Outcome, report and output of a run *)

Section RunFacts.

Variable argv : cmdline.
Variable w : env.
Variable args : Namespace.
Hypothesis parsed : parse_args argv = Ok args.

Lemma reported_closed_form :
  reported argv w =
  filter (accepted args w) (processed args w (sorted (glob_py w))).
Proof.
  unfold reported. rewrite run_closed_form with (args := args) by exact parsed.
  unfold search. now rewrite search_closed_form.
Qed.

Lemma outcome_closed_form :
  fst (run argv w) =
  match first_error args w (sorted (glob_py w)) with
  | None => Ok tt
  | Some e => Raise e
  end.
Proof.
  rewrite run_closed_form with (args := args) by exact parsed.
  unfold search. now rewrite search_closed_form.
Qed.

Lemma stdout_closed_form :
  stdout (snd (run argv w)) =
  concat (map (block args w) (reported argv w)) ++
  match fst (run argv w), reported argv w with
  | Ok _, [] => NO_RESULTS ++ [LF]
  | _, _ => []
  end.
Proof.
  rewrite reported_closed_form, outcome_closed_form.
  rewrite run_closed_form with (args := args) by exact parsed.
  unfold search. rewrite search_closed_form. simpl.
  unfold block. f_equal.
  now destruct (first_error args w (sorted (glob_py w))).
Qed.



Lemma reported_accepted (f : str) :
  In f (reported argv w) ->
  exists t, extract args w f = Ok t /\
            _test_matching_keywords (keywords args) [f; t] = true.
Proof.
  rewrite reported_closed_form. intros H. apply filter_In in H as [H A].
  destruct (processed_ok _ _ _ _ H) as [t Ht]. exists t. split; [exact Ht|].
  unfold accepted, text_of in A. now rewrite Ht in A.
Qed.


Lemma reported_sorted : StronglySorted str_le (reported argv w).
Proof.
  rewrite reported_closed_form.
  apply StronglySorted_filter, processed_sorted, sorted_sorted.
Qed.

End RunFacts.

(** ** Inclusion in the report *)



(** ** Order of the report *)

(** C4. The reported scripts are in ascending order of file name, their
    blocks are printed in that order, and the run does not depend on the
    order in which the directory is enumerated. *)
Theorem report_in_sorted_order (argv : cmdline) (w : env) (args : Namespace) :
  parse_args argv = Ok args ->
  StronglySorted str_le (reported argv w)
  /\ (exists last, stdout (snd (run argv w)) =
                   concat (map (block args w) (reported argv w)) ++ last
                   /\ (last = [] \/ last = NO_RESULTS ++ [LF] /\ reported argv w = []))
  /\ (forall l, Permutation (glob_py w) l -> run argv (with_listing w l) = run argv w).
Proof.
  intros P. split; [|split].
  - now apply reported_sorted with (args := args).
  - rewrite stdout_closed_form with (args := args) by exact P.
    eexists. split; [reflexivity|].
    destruct (fst (run argv w)); [|now left].
    destruct (reported argv w); [now right | now left].
  - intros l Hl.
    rewrite !run_closed_form with (args := args) by exact P.
    unfold search, search_with. simpl.
    now rewrite (sorted_permutation_invariant _ _ Hl).
Qed.

Lemma report_in_sorted_order_witness :
  let argv := fast [lit "scil"] in
  let args := {| keywords := [lit "scil"]; search_parser := false |} in
  parse_args argv = Ok args
  /\ reported argv demo_env =
       [lit "scil_a.py"; lit "scil_b.py"; lit "scil_denoise_image.py"]
  /\ StronglySorted str_le (reported argv demo_env)
  /\ (forall l, Permutation (glob_py demo_env) l ->
        run argv (with_listing demo_env l) = run argv demo_env).
Proof.
  split; [reflexivity|]. split; [vm_compute; reflexivity|].
  pose proof (report_in_sorted_order (fast [lit "scil"]) demo_env
                {| keywords := [lit "scil"]; search_parser := false |} eq_refl)
    as [S [_ I]].
  split; [exact S | exact I].
Defined.

(** ** The no-result line *)



(** ** Extraction errors *)

Lemma extract_raise_iff (args : Namespace) (w : env) (f : str) (e : exn) :
  extract args w f = Raise e <-> extraction_raises args w f e.
Proof.
  unfold extract, extraction_raises, _get_docstring.
  destruct (search_parser args); [tauto|].
  destruct (read_file w f) as [c|e1].
  - destruct (ast_parse w c) as [m|e2] eqn:E.
    + split; [discriminate|].
      intros [H | [c' [[= <-] H]]]; [discriminate | congruence].
    + split.
      * intros H. right. exists c. split; [reflexivity | congruence].
      * intros [H | [c' [[= <-] H]]]; congruence.
  - split; [now left|].
    intros [H | [c [H _]]]; [exact H | discriminate].
Qed.

(** C7. When the extraction of some discovered script raises, the run
    ends with an exception raised by an extraction: the loop stops at
    the first such script in sorted order, only scripts sorted before it
    are reported, and nothing is printed after their blocks. *)
Theorem extraction_error_aborts_run (argv : cmdline) (w : env) (args : Namespace)
    (f : str) (e : exn) :
  parse_args argv = Ok args ->
  In f (glob_py w) ->
  extraction_raises args w f e ->
  exists g e' before after,
    sorted (glob_py w) = before ++ g :: after
    /\ extraction_raises args w g e'
    /\ fst (run argv w) = Raise e'
    /\ (forall h, In h (reported argv w) -> In h before)
    /\ stdout (snd (run argv w)) = concat (map (block args w) (reported argv w)).
Proof.
  intros P Hf Hr. apply extract_raise_iff in Hr.
  assert (Hs : In f (sorted (glob_py w)))
    by (eapply Permutation_in; [apply sorted_perm | exact Hf]).
  destruct (first_error_raise args w _ _ _ Hs Hr) as [e' F].
  destruct (first_error_some args w _ _ F) as [g [after [Hl Hg]]].
  exists g, e', (processed args w (sorted (glob_py w))), after.
  split; [exact Hl|]. split; [now apply extract_raise_iff|].
  assert (O : fst (run argv w) = Raise e')
    by (rewrite outcome_closed_form with (args := args) by exact P; now rewrite F).
  split; [exact O|]. split.
  - intros h. rewrite reported_closed_form with (args := args) by exact P.
    intros H. now apply filter_In in H.
  - rewrite stdout_closed_form with (args := args) by exact P.
    rewrite O. now rewrite app_nil_r.
Qed.

Lemma extraction_error_aborts_run_witness :
  let argv := fast [lit "scil"] in
  let args := {| keywords := [lit "scil"]; search_parser := false |} in
  parse_args argv = Ok args
  /\ In (lit "scil_broken.py") (glob_py broken_env)
  /\ extraction_raises args broken_env (lit "scil_broken.py") SyntaxError
  /\ reported argv broken_env = [lit "scil_a.py"; lit "scil_b.py"]
  /\ exists g e' before after,
       sorted (glob_py broken_env) = before ++ g :: after
       /\ extraction_raises args broken_env g e'
       /\ fst (run argv broken_env) = Raise e'
       /\ (forall h, In h (reported argv broken_env) -> In h before)
       /\ stdout (snd (run argv broken_env)) =
            concat (map (block args broken_env) (reported argv broken_env)).
Proof.
  assert (R : extraction_raises {| keywords := [lit "scil"]; search_parser := false |}
                broken_env (lit "scil_broken.py") SyntaxError).
  { right. exists (lit "def ("). split; vm_compute; reflexivity. }
  split; [reflexivity|].
  split; [simpl; tauto|].
  split; [exact R|].
  split; [vm_compute; reflexivity|].
  apply (extraction_error_aborts_run (fast [lit "scil"]) broken_env
           {| keywords := [lit "scil"]; search_parser := false |}
           (lit "scil_broken.py") SyntaxError eq_refl);
    [simpl; tauto | exact R].
Defined.

(** ** The empty keyword list *)

(** C9. With no keyword the test is true for any texts, so the search
    reports every discovered script; [parse_args] never yields an empty
    keyword list, and exits with status 2 when no keyword is given. *)
Theorem empty_keywords_accept_everything :
  (forall texts, _test_matching_keywords [] texts = true)
  /\ (forall (w : env) (mode : bool),
        let args := {| keywords := []; search_parser := mode |} in
        fst (search args w init) = Ok tt ->
        matches (snd (search args w init)) = sorted (glob_py w))
  /\ (forall argv args, parse_args argv = Ok args -> keywords args <> [])
  /\ (forall argv w, positionals argv = [] ->
        run argv w = (Raise (SystemExit 2), init)).
Proof.
  split; [reflexivity|]. split; [|split].
  - intros w mode args. unfold search. rewrite search_closed_form. simpl.
    destruct (first_error args w (sorted (glob_py w))) eqn:F; [discriminate|].
    intros _. rewrite (first_error_none_processed _ _ _ F).
    apply forallb_filter_id. apply forallb_forall. reflexivity.
  - intros argv args. unfold parse_args.
    destruct (positionals argv) eqn:E; [discriminate|].
    intros [= <-]. discriminate.
  - intros argv w E. unfold run, main. rewrite main_with_closed_form.
    unfold parse_args. now rewrite E.
Qed.

Lemma empty_keywords_accept_everything_witness :
  let args := {| keywords := []; search_parser := false |} in
  (fst (search args demo_env init) = Ok tt
   /\ matches (snd (search args demo_env init)) =
        [lit "scil_a.py"; lit "scil_b.py"; lit "scil_denoise_image.py"])
  /\ (parse_args (fast [lit "dti"]) =
        Ok {| keywords := [lit "dti"]; search_parser := false |}
      /\ [lit "dti"] <> [])
  /\ (positionals (fast []) = []
      /\ run (fast []) demo_env = (Raise (SystemExit 2), init)).
Proof.
  pose proof empty_keywords_accept_everything as [_ [A [B C]]].
  split; [|split].
  - split; [vm_compute; reflexivity|].
    exact (A demo_env false ltac:(vm_compute; reflexivity)).
  - split; [reflexivity|].
    exact (B (fast [lit "dti"]) {| keywords := [lit "dti"]; search_parser := false |}
             eq_refl).
  - split; [reflexivity|]. exact (C (fast []) demo_env eq_refl).
Defined.

(** ** Highlighting and the inclusion decision *)

(** C10. Whatever substitution is used for highlighting, the run has the
    same outcome and reports the same scripts in the same order as with
    no highlighting at all; every reported script passed the test on its
    file name and extracted text as they were before any substitution. *)
Theorem highlighting_does_not_change_report
    (regex_sub : pattern -> str -> str) (argv : cmdline) (w : env) :
  fst (main_with regex_sub argv w init) = fst (main_with (fun _ t => t) argv w init)
  /\ matches (snd (main_with regex_sub argv w init)) =
     matches (snd (main_with (fun _ t => t) argv w init))
  /\ (forall args f,
        parse_args argv = Ok args ->
        In f (matches (snd (main_with regex_sub argv w init))) ->
        exists t, extract args w f = Ok t /\
                  _test_matching_keywords (keywords args) [f; t] = true).
Proof.
  rewrite !main_with_closed_form.
  destruct (parse_args argv) as [args|e] eqn:P.
  - rewrite !search_closed_form. simpl. split; [reflexivity|]. split; [reflexivity|].
    intros args' f [= <-] H. apply filter_In in H as [H A].
    destruct (processed_ok _ _ _ _ H) as [t Ht]. exists t. split; [exact Ht|].
    unfold accepted, text_of in A. now rewrite Ht in A.
  - split; [reflexivity|]. split; [reflexivity|]. intros args f [=].
Qed.

Lemma highlighting_does_not_change_report_witness :
  let argv := fast [lit "denoise"] in
  let args := {| keywords := [lit "denoise"]; search_parser := false |} in
  let f := lit "scil_denoise_image.py" in
  parse_args argv = Ok args
  /\ In f (matches (snd (main_with re_sub argv demo_env init)))
  /\ exists t, extract args demo_env f = Ok t /\
               _test_matching_keywords (keywords args) [f; t] = true.
Proof.
  split; [reflexivity|].
  assert (H : In (lit "scil_denoise_image.py")
                (matches (snd (main_with re_sub (fast [lit "denoise"]) demo_env init))))
    by (vm_compute; now left).
  split; [exact H|].
  exact (proj2 (proj2 (highlighting_does_not_change_report re_sub
                         (fast [lit "denoise"]) demo_env))
           {| keywords := [lit "denoise"]; search_parser := false |}
           (lit "scil_denoise_image.py") eq_refl H).
Defined.

(** ** Determinism *)

Lemma for_each_ext {A} (l : list A) (body1 body2 : A -> M unit) :
  (forall x, In x l -> forall st, body1 x st = body2 x st) ->
  forall st, for_each l body1 st = for_each l body2 st.
Proof.
  induction l as [|x l IH]; intros H st; simpl; [reflexivity|].
  unfold bind. rewrite (H x (or_introl eq_refl)).
  destruct (body2 x st) as [[[]|e] st']; [|reflexivity].
  apply IH. intros y Hy. apply H. now right.
Qed.

Lemma loop_body_env_ext (regex_sub : pattern -> str -> str) (args : Namespace)
    (kw_subs : list pattern) (w w' : env) (f : str) :
  extract args w f = extract args w' f ->
  forall st, loop_body regex_sub args kw_subs w f st =
             loop_body regex_sub args kw_subs w' f st.
Proof.
  intros E st. unfold loop_body. now rewrite E.
Qed.

Lemma search_env_ext (args : Namespace) (w w' : env) :
  Permutation (glob_py w) (glob_py w') ->
  (forall f, In f (glob_py w) -> extract args w f = extract args w' f) ->
  search args w init = search args w' init.
Proof.
  intros Hp He. unfold search, search_with, bind at 1 3.
  rewrite <- (sorted_permutation_invariant _ _ Hp).
  rewrite for_each_ext with
    (body2 := loop_body re_sub args (map re_compile (keywords args)) w');
    [reflexivity|].
  intros f Hf. apply loop_body_env_ext. apply He.
  eapply Permutation_in; [apply Permutation_sym, sorted_perm | exact Hf].
Qed.

(** C8, as stated: unchanged files are not enough in slow mode, where
    the output is made from what the help subprocesses print. *)
Lemma unchanged_files_do_not_fix_the_output :
  ~ (forall argv w w',
       glob_py w = glob_py w' ->
       (forall f, read_file w f = read_file w' f) ->
       (forall c, ast_parse w c = ast_parse w' c) ->
       stdout (snd (run argv w)) = stdout (snd (run argv w'))).
Proof.
  intros H.
  specialize (H (slow [lit "usage"]) demo_env narrow_env eq_refl
                (fun _ => eq_refl) (fun _ => eq_refl)).
  vm_compute in H. discriminate H.
Qed.

(** C8, amended. Two runs with the same command line over the same set
    of file names give the same outcome and the same output, in any
    enumeration order, when every script yields the same text in both:
    in fast mode, when the files read the same and parse the same; in
    slow mode, when the help subprocesses print the same. *)
Theorem same_inputs_same_output (argv : cmdline) (w w' : env) :
  Permutation (glob_py w) (glob_py w') ->
  (search_parser_given argv = false ->
   forall f, In f (glob_py w) ->
     read_file w f = read_file w' f /\
     forall c, read_file w f = Ok c -> ast_parse w c = ast_parse w' c) ->
  (search_parser_given argv = true ->
   forall f, In f (glob_py w) -> popen_help w f = popen_help w' f) ->
  run argv w = run argv w'.
Proof.
  intros Hp Hfast Hslow. unfold run, main. rewrite !main_with_closed_form.
  destruct (parse_args argv) as [args|e] eqn:P; [|reflexivity].
  assert (M : search_parser args = search_parser_given argv).
  { unfold parse_args in P. destruct (positionals argv); [discriminate|].
    now injection P as <-. }
  apply search_env_ext; [exact Hp|].
  intros f Hf. unfold extract, _get_docstring. rewrite M.
  destruct (search_parser_given argv).
  - now apply Hslow.
  - destruct (Hfast eq_refl f Hf) as [Hr Ha]. rewrite <- Hr.
    destruct (read_file w f) as [c|e]; [|reflexivity].
    now rewrite (Ha c eq_refl).
Qed.

Lemma same_inputs_same_output_witness :
  let argv := fast [lit "scil"] in
  let argv' := slow [lit "usage"] in
  let l := [lit "scil_a.py"; lit "scil_b.py"; lit "scil_denoise_image.py"] in
  (Permutation (glob_py demo_env) (glob_py narrow_env)
   /\ run argv demo_env = run argv narrow_env)
  /\ (Permutation (glob_py demo_env) (glob_py (with_listing demo_env l))
      /\ run argv' demo_env = run argv' (with_listing demo_env l)).
Proof.
  assert (P : Permutation (glob_py demo_env)
                [lit "scil_a.py"; lit "scil_b.py"; lit "scil_denoise_image.py"]).
  { exact (sorted_perm (glob_py demo_env)). }
  split; (split; [first [reflexivity | exact P]|]).
  - apply (same_inputs_same_output (fast [lit "scil"]) demo_env narrow_env).
    + reflexivity.
    + intros _ f _. split; [reflexivity | intros c _; reflexivity].
    + intros H. discriminate H.
  - apply (same_inputs_same_output (slow [lit "usage"]) demo_env
             (with_listing demo_env
                [lit "scil_a.py"; lit "scil_b.py"; lit "scil_denoise_image.py"])).
    + exact P.
    + intros H. discriminate H.
    + intros _ f _. reflexivity.
Defined.

(** ** The substitution pass *)

Lemma match_here_iff (kw s : str) :
  match_here kw s = true <-> ci_prefix kw s.
Proof.
  unfold ci_prefix. revert s; induction kw as [|a kw IH]; intros s; simpl.
  - split; [intros _ | reflexivity]. now exists [], s.
  - destruct s as [|b s].
    + split; [discriminate|].
      intros [m [rest [H1 H2]]]. destruct m; discriminate.
    + rewrite andb_true_iff, Ascii.eqb_eq, IH. split.
      * intros [Hc [m [rest [-> Hm]]]]. exists (b :: m), rest.
        split; [reflexivity|]. simpl. now rewrite Hc, Hm.
      * intros [[|c m] [rest [H1 H2]]]; [discriminate|].
        injection H1 as -> ->. injection H2 as Hc Hm.
        split; [now rewrite Hc | now exists m, rest].
Qed.

Lemma match_here_firstn (kw s : str) :
  match_here kw s = true ->
  str_lower (firstn (length kw) s) = str_lower kw
  /\ length (firstn (length kw) s) = length kw.
Proof.
  revert s; induction kw as [|a kw IH]; intros s; simpl; [auto|].
  destruct s as [|b s]; [discriminate|].
  rewrite andb_true_iff, Ascii.eqb_eq. intros [Hc H].
  destruct (IH s H) as [H1 H2]. simpl. now rewrite Hc, H1, H2.
Qed.

Lemma match_here_startswith (kw s : str) :
  match_here kw s = startswith (str_lower kw) (str_lower s).
Proof.
  revert s; induction kw as [|a kw IH]; intros [|b s]; simpl; auto.
  now rewrite IH.
Qed.

Lemma sub_loop_fuel (n m : nat) (kw s : str) :
  length s < n -> length s < m -> sub_loop n kw s = sub_loop m kw s.
Proof.
  revert m s; induction n as [|n IH]; intros m s Hn Hm; [lia|].
  destruct m as [|m]; [lia|]. cbn [sub_loop].
  destruct (match_here kw s).
  - apply (f_equal (app _)). destruct (firstn (length kw) s) as [|x m'] eqn:F.
    + destruct (skipn (length kw) s) as [|c r] eqn:K; [reflexivity|].
      apply (f_equal (cons c)). assert (L : length (skipn (length kw) s) = S (length r)) by now rewrite K.
      rewrite length_skipn in L. apply IH; lia.
    + assert (L : length (firstn (length kw) s) = S (length m')) by now rewrite F.
      rewrite length_firstn in L.
      apply IH; rewrite length_skipn; lia.
  - destruct s as [|c r]; [reflexivity|]. f_equal. simpl in *. apply IH; lia.
Qed.

(** The equations of the scan. *)

Lemma sub_loop_S (n : nat) (kw s : str) :
  sub_loop (S n) kw s =
  if match_here kw s then
    new_key (firstn (length kw) s) ++
    match firstn (length kw) s with
    | [] => match skipn (length kw) s with
            | [] => []
            | c :: r => c :: sub_loop n kw r
            end
    | _ :: _ => sub_loop n kw (skipn (length kw) s)
    end
  else
    match s with
    | [] => []
    | c :: r => c :: sub_loop n kw r
    end.
Proof. reflexivity. Qed.

Lemma re_sub_nil (kw : str) :
  kw <> [] -> re_sub (re_compile kw) [] = [].
Proof.
  destruct kw; [congruence | reflexivity].
Qed.

Lemma re_sub_copy (kw : str) (c : ascii) (s : str) :
  match_here kw (c :: s) = false ->
  re_sub (re_compile kw) (c :: s) = c :: re_sub (re_compile kw) s.
Proof.
  intros H. unfold re_sub, re_compile. rewrite sub_loop_S at 1. now rewrite H.
Qed.

Lemma re_sub_match (kw s : str) :
  kw <> [] -> match_here kw s = true ->
  re_sub (re_compile kw) s =
  new_key (firstn (length kw) s) ++ re_sub (re_compile kw) (skipn (length kw) s).
Proof.
  intros Hk H. unfold re_sub, re_compile. rewrite sub_loop_S at 1. rewrite H.
  apply (f_equal (app _)).
  destruct (match_here_firstn kw s H) as [_ L].
  destruct (firstn (length kw) s) as [|x m] eqn:F.
  - destruct kw; [congruence | discriminate].
  - apply sub_loop_fuel; rewrite length_skipn; [|lia].
    assert (L' : length (firstn (length kw) s) = length kw) by now rewrite F.
    rewrite length_firstn in L'. simpl in L. lia.
Qed.

Lemma re_sub_empty_keyword (s : str) :
  re_sub (re_compile []) s =
  new_key [] ++ match s with
                | [] => []
                | c :: r => c :: re_sub (re_compile []) r
                end.
Proof.
  unfold re_sub, re_compile. rewrite sub_loop_S at 1.
  cbn [match_here length firstn skipn]. now destruct s.
Qed.

Lemma occurs_at_nil (kw : str) (i : nat) : kw <> [] -> ~ occurs_at kw [] i.
Proof.
  intros Hk [_ [m [rest [H1 H2]]]].
  rewrite skipn_nil in H1. symmetry in H1. apply app_eq_nil in H1 as [-> _].
  destruct kw; [congruence | discriminate].
Qed.

Lemma occurs_at_cons (kw : str) (c : ascii) (s : str) (i : nat) :
  occurs_at kw (c :: s) (S i) <-> occurs_at kw s i.
Proof.
  unfold occurs_at. simpl. split; intros [H1 H2]; (split; [lia | exact H2]).
Qed.

Lemma occurs_at_skip (kw t : str) (n i : nat) :
  n <= i -> occurs_at kw t i -> occurs_at kw (skipn n t) (i - n).
Proof.
  intros Hn [H1 H2]. split.
  - rewrite length_skipn. lia.
  - rewrite skipn_skipn. now replace (i - n + n) with i by lia.
Qed.

(** One pass over any text, for a keyword that is not empty. *)
Lemma one_pass_wraps_leftmost (kw : str) :
  kw <> [] ->
  forall n t, length t < n ->
    leftmost_occurrences_wrapped kw t (re_sub (re_compile kw) t).
Proof.
  intros Hk. induction n as [|n IH]; intros t Hn; [lia|].
  destruct t as [|c s].
  - exists []. rewrite re_sub_nil by exact Hk.
    repeat split; [constructor|].
    intros i H. now apply occurs_at_nil in H.
  - destruct (match_here kw (c :: s)) eqn:E.
    + destruct (match_here_firstn kw _ E) as [Hm Lm].
      set (m := firstn (length kw) (c :: s)) in *.
      set (rest := skipn (length kw) (c :: s)).
      assert (Ht : c :: s = m ++ rest) by (symmetry; apply firstn_skipn).
      assert (Lk : 0 < length kw) by (destruct kw; [congruence | simpl; lia]).
      assert (Lr : length rest < n).
      { unfold rest. rewrite length_skipn.
        assert (length (c :: s) = S (length s)) by reflexivity. lia. }
      destruct (IH rest Lr) as [segs [Hr [He [Hh Hc]]]].
      exists (Hit m :: segs). split; [|split; [|split]].
      * rewrite re_sub_match by assumption. fold m rest. rewrite Hr.
        unfold new_key. simpl render. now rewrite <- !app_assoc.
      * simpl. now rewrite He.
      * constructor; [|exact Hh]. exists kw. split; [now left | exact Hm].
      * intros i Hi. simpl. destruct (Nat.ltb_spec i (length m)); [reflexivity|].
        apply Hc. unfold rest. rewrite <- Lm. apply occurs_at_skip; [lia | exact Hi].
    + assert (Ls : length s < n) by (simpl in Hn; lia).
      destruct (IH s Ls) as [segs [Hr [He [Hh Hc]]]].
      exists (Plain c :: segs). split; [|split; [|split]].
      * rewrite re_sub_copy by exact E. cbn [render]. now rewrite Hr.
      * simpl. now rewrite He.
      * constructor; [exact I | exact Hh].
      * intros [|i] Hi.
        -- destruct Hi as [_ Hi]. apply match_here_iff in Hi. simpl in Hi. congruence.
        -- simpl. apply Hc. now apply occurs_at_cons in Hi.
Qed.

(** A pass leaves a text without occurrence as it is. *)
Lemma re_sub_no_occurrence (kw t : str) :
  str_contains (str_lower kw) (str_lower t) = false ->
  re_sub (re_compile kw) t = t.
Proof.
  induction t as [|c s IH]; simpl str_contains; intros H;
    apply orb_false_iff in H as [H1 H2].
  - destruct kw; [discriminate | reflexivity].
  - rewrite re_sub_copy; [now rewrite IH|].
    now rewrite match_here_startswith.
Qed.

(** A pass never shortens a text. *)
Lemma re_sub_length (kw : str) :
  forall n t, length t < n -> length t <= length (re_sub (re_compile kw) t).
Proof.
  induction n as [|n IH]; intros t Hn; [lia|].
  destruct kw as [|a kw'] eqn:K.
  - rewrite re_sub_empty_keyword. rewrite length_app.
    destruct t as [|c r]; [simpl; lia|].
    assert (length r <= length (re_sub (re_compile []) r)) by (apply IH; simpl in Hn; lia).
    cbn [length]. lia.
  - rewrite <- K in *. assert (Hk : kw <> []) by (rewrite K; discriminate).
    destruct (match_here kw t) eqn:E.
    + rewrite re_sub_match by assumption.
      destruct (match_here_firstn kw t E) as [_ L].
      assert (Lk : 0 < length kw) by (rewrite K; simpl; lia).
      assert (Lt : length kw <= length t).
      { rewrite length_firstn in L. lia. }
      assert (length (skipn (length kw) t)
              <= length (re_sub (re_compile kw) (skipn (length kw) t)))
        by (apply IH; rewrite length_skipn; lia).
      rewrite length_skipn in H at 1.
      unfold new_key. rewrite !length_app, L. lia.
    + destruct t as [|c r]; [simpl; lia|].
      rewrite re_sub_copy by exact E.
      assert (length r <= length (re_sub (re_compile kw) r))
        by (apply IH; simpl in Hn; lia).
      cbn [length]. lia.
Qed.

(** ** Highlighting *)

Lemma render_length (segs : list seg) :
  length (render segs) = length (erase segs) + 13 * hits segs.
Proof.
  induction segs as [|[c|m] segs IH]; cbn [render erase hits].
  - reflexivity.
  - simpl length. lia.
  - rewrite !length_app, IH.
    change (length RED) with 5. change (length BOLD) with 4.
    change (length END_COLOR) with 4. lia.
Qed.

Lemma no_hit_no_wrap (segs : list seg) (j : nat) :
  hits segs = 0 -> wrapped_at segs j = false.
Proof.
  revert j; induction segs as [|[c|m] segs IH]; intros j H; simpl in *.
  - reflexivity.
  - destruct j; [reflexivity | now apply IH].
  - discriminate.
Qed.





(** ** The placeholder *)

Lemma subst_all_length (kws : list str) (t : str) :
  length t <= length (subst_all re_sub kws t).
Proof.
  unfold subst_all. revert t.
  induction kws as [|kw kws IH]; intros t; cbn [fold_left map]; [lia|].
  etransitivity; [|apply IH].
  apply re_sub_length with (n := S (length t)). lia.
Qed.

Lemma subst_all_no_occurrence (kws : list str) (t : str) :
  (forall k, In k kws -> ~ ci_substring k t) ->
  subst_all re_sub kws t = t.
Proof.
  unfold subst_all. induction kws as [|kw kws IH]; intros H; cbn [fold_left map];
    [reflexivity|].
  rewrite re_sub_no_occurrence.
  - apply IH. intros k Hk. apply H. now right.
  - destruct (str_contains (str_lower kw) (str_lower t)) eqn:E; [|reflexivity].
    apply str_contains_lower_iff in E. exfalso. apply (H kw); [now left | exact E].
Qed.

(** C6, as stated: the keyword [doc] is found in the name of
    [scil_doc.py], which has no docstring, and the body printed is the
    placeholder with [doc] wrapped in markers, not the placeholder. *)
Lemma placeholder_is_highlighted :
  ~ (forall argv w args f,
       parse_args argv = Ok args ->
       In f (reported argv w) ->
       extract args w f = Ok [] ->
       printed_text args w f = PLACEHOLDER).
Proof.
  intros H.
  specialize (H (fast [lit "doc"]) doc_env
                {| keywords := [lit "doc"]; search_parser := false |}
                (lit "scil_doc.py") eq_refl).
  assert (R : In (lit "scil_doc.py") (reported (fast [lit "doc"]) doc_env))
    by (vm_compute; now left).
  specialize (H R eq_refl). vm_compute in H. discriminate H.
Qed.

(** C6, amended. For a reported script whose extracted text is empty,
    the body printed in its block is the placeholder after the keyword
    substitutions; it is never empty, and it is the placeholder itself
    when no keyword is a case-insensitive substring of the placeholder. *)
Theorem empty_text_prints_placeholder (argv : cmdline) (w : env) (args : Namespace)
    (f : str) :
  parse_args argv = Ok args ->
  In f (reported argv w) ->
  extract args w f = Ok [] ->
  (exists before after,
     stdout (snd (run argv w)) =
     before ++ block_of (printed_name args f) (printed_text args w f) ++ after)
  /\ printed_text args w f = highlight (map re_compile (keywords args)) PLACEHOLDER
  /\ printed_text args w f <> []
  /\ ((forall k, In k (keywords args) -> ~ ci_substring k PLACEHOLDER) ->
      printed_text args w f = PLACEHOLDER).
Proof.
  intros P R E.
  assert (T : printed_text args w f = subst_all re_sub (keywords args) PLACEHOLDER).
  { unfold printed_text, printed_text_with, text_of. now rewrite E. }
  split; [|split; [|split]].
  - rewrite stdout_closed_form with (args := args) by exact P.
    apply in_split in R as [l1 [l2 R]]. rewrite R.
    rewrite map_app, concat_app. cbn [map concat].
    exists (concat (map (block args w) l1)). eexists.
    rewrite <- !app_assoc. reflexivity.
  - exact T.
  - rewrite T. pose proof (subst_all_length (keywords args) PLACEHOLDER) as L.
    intros Z. rewrite Z in L. vm_compute in L. lia.
  - intros H. rewrite T. now apply subst_all_no_occurrence.
Qed.

Lemma empty_text_prints_placeholder_witness :
  let argv := fast [lit "scil"] in
  let args := {| keywords := [lit "scil"]; search_parser := false |} in
  let f := lit "scil_a.py" in
  parse_args argv = Ok args
  /\ In f (reported argv demo_env)
  /\ extract args demo_env f = Ok []
  /\ (forall k, In k (keywords args) -> ~ ci_substring k PLACEHOLDER)
  /\ printed_text args demo_env f = PLACEHOLDER.
Proof.
  assert (R : In (lit "scil_a.py") (reported (fast [lit "scil"]) demo_env))
    by (vm_compute; now left).
  assert (N : forall k, In k [lit "scil"] -> ~ ci_substring k PLACEHOLDER).
  { intros k [<-|[]] H. apply str_contains_lower_iff in H.
    vm_compute in H. discriminate H. }
  split; [reflexivity|]. split; [exact R|]. split; [reflexivity|]. split; [exact N|].
  exact (proj2 (proj2 (proj2
           (empty_text_prints_placeholder (fast [lit "scil"]) demo_env
              {| keywords := [lit "scil"]; search_parser := false |}
              (lit "scil_a.py") eq_refl R eq_refl))) N).
Defined.

(** ** The docstring *)

Lemma expandtabs_no_tab (d : str) (col : nat) :
  Forall (fun c => c <> TAB) d -> expandtabs_from col d = d.
Proof.
  intros H. revert col. induction H as [|c d Hc H IH]; intros col; simpl; [reflexivity|].
  destruct (Ascii.eqb_spec c TAB); [contradiction|]. now rewrite IH.
Qed.

Lemma split_lines_no_newline (d : str) :
  Forall (fun c => c <> LF) d -> split_lines d = [d].
Proof.
  induction 1 as [|c d Hc H IH]; simpl; [reflexivity|].
  destruct (Ascii.eqb_spec c LF); [contradiction|]. now rewrite IH.
Qed.

Lemma cleandoc_plain_one_line (d : str) :
  plain_one_line d -> inspect_cleandoc d = d.
Proof.
  intros [H L]. unfold inspect_cleandoc, expandtabs.
  rewrite expandtabs_no_tab
    by (eapply Forall_impl; [|exact H]; intros c Hc; apply Hc).
  rewrite split_lines_no_newline
    by (eapply Forall_impl; [|exact H]; intros c Hc; apply Hc).
  unfold margin_of. simpl. rewrite L.
  unfold drop_trailing_blank. now destruct d.
Qed.

(** C3, as stated: the docstring is not returned as written.  Here it
    starts and ends with a newline, which the extraction removes. *)
Lemma docstring_is_not_verbatim :
  ~ (forall w script c m d,
       read_file w script = Ok c ->
       ast_parse w c = Ok m ->
       raw_docstring m = Some d ->
       _get_docstring w script = Ok d).
Proof.
  intros H.
  specialize (H multiline_env (lit "scil_search.py") multiline_src
                (with_docstring multiline_doc) multiline_doc
                eq_refl eq_refl eq_refl).
  vm_compute in H. discriminate H.
Qed.

(** C3, amended. When the file is read and parsed, [_get_docstring]
    returns the string constant that opens the module body after the
    clean-up of [inspect.cleandoc] (tabs expanded, leading blanks of the
    first line and common indentation of the others removed, blank lines
    at both ends removed), and the empty string when the body does not
    open with a string constant.  A docstring on one line, without tab
    and without leading blank, is returned as written. *)
Theorem get_docstring_returns_cleaned_docstring (w : env) (script c : str)
    (m : Module_) :
  read_file w script = Ok c ->
  ast_parse w c = Ok m ->
  _get_docstring w script =
    Ok match raw_docstring m with
       | Some d => inspect_cleandoc d
       | None => []
       end
  /\ (forall d, raw_docstring m = Some d -> plain_one_line d ->
        _get_docstring w script = Ok d).
Proof.
  intros R A.
  assert (G : _get_docstring w script =
              Ok match raw_docstring m with
                 | Some d => inspect_cleandoc d
                 | None => []
                 end).
  { unfold _get_docstring, ast_get_docstring. rewrite R, A.
    now destruct (raw_docstring m). }
  split; [exact G|].
  intros d D O. rewrite G, D. now rewrite cleandoc_plain_one_line.
Qed.

Lemma get_docstring_returns_cleaned_docstring_witness :
  let script := lit "scil_denoise_image.py" in
  let c := lit "'''Apply NLMeans denoise.'''" in
  let d := lit "Apply NLMeans denoise." in
  read_file demo_env script = Ok c
  /\ ast_parse demo_env c = Ok (with_docstring d)
  /\ raw_docstring (with_docstring d) = Some d
  /\ plain_one_line d
  /\ _get_docstring demo_env script = Ok d
  /\ _get_docstring multiline_env (lit "scil_search.py") =
       Ok (lit "Search through scripts.").
Proof.
  assert (O : plain_one_line (lit "Apply NLMeans denoise.")).
  { split; [|reflexivity].
    repeat (constructor; [split; discriminate|]). constructor. }
  split; [reflexivity|]. split; [reflexivity|]. split; [reflexivity|].
  split; [exact O|]. split.
  - exact (proj2 (get_docstring_returns_cleaned_docstring demo_env
                    (lit "scil_denoise_image.py")
                    (lit "'''Apply NLMeans denoise.'''")
                    (with_docstring (lit "Apply NLMeans denoise."))
                    eq_refl eq_refl)
             (lit "Apply NLMeans denoise.") eq_refl O).
  - rewrite (proj1 (get_docstring_returns_cleaned_docstring multiline_env
                      (lit "scil_search.py") multiline_src
                      (with_docstring multiline_doc) eq_refl eq_refl)).
    vm_compute. reflexivity.
Defined.


(** * Further properties of the code *)

(** ** The keyword test on any texts *)

Lemma key_match_up_to_case (k k' : str) (texts texts' : list str) :
  same_up_to_case k k' ->
  Forall2 same_up_to_case texts texts' ->
  key_match k texts = key_match k' texts'.
Proof.
  unfold same_up_to_case. intros Hk H.
  induction H as [|t t' texts texts' Ht H IH]; simpl; [reflexivity|].
  now rewrite Hk, Ht, IH.
Qed.

(** X1. The test ignores letter case: keywords and texts that are
    pairwise equal up to case give the same answer. *)
Theorem test_ignores_letter_case (kws kws' texts texts' : list str) :
  Forall2 same_up_to_case kws kws' ->
  Forall2 same_up_to_case texts texts' ->
  _test_matching_keywords kws texts = _test_matching_keywords kws' texts'.
Proof.
  intros Hk Ht. unfold _test_matching_keywords, np_all.
  induction Hk as [|k k' kws kws' Hk1 Hk IH]; simpl; [reflexivity|].
  now rewrite IH, (key_match_up_to_case k k' texts texts' Hk1 Ht).
Qed.

Lemma test_ignores_letter_case_witness :
  Forall2 same_up_to_case [lit "DTI"] [lit "dti"]
  /\ Forall2 same_up_to_case [lit "scil_Metrics.py"; lit "Compute DTI metrics."]
                             [lit "SCIL_metrics.py"; lit "compute dti METRICS."]
  /\ _test_matching_keywords [lit "DTI"]
       [lit "scil_Metrics.py"; lit "Compute DTI metrics."] =
     _test_matching_keywords [lit "dti"]
       [lit "SCIL_metrics.py"; lit "compute dti METRICS."].
Proof.
  assert (A : Forall2 same_up_to_case [lit "DTI"] [lit "dti"])
    by (repeat constructor).
  assert (B : Forall2 same_up_to_case
                [lit "scil_Metrics.py"; lit "Compute DTI metrics."]
                [lit "SCIL_metrics.py"; lit "compute dti METRICS."])
    by (repeat constructor).
  split; [exact A|]. split; [exact B|].
  exact (test_ignores_letter_case _ _ _ _ A B).
Defined.

(** ** The report as a function of the keywords *)

Lemma parse_args_cmd (kws : list str) (mode : bool) :
  kws <> [] ->
  parse_args (cmd kws mode) = Ok {| keywords := kws; search_parser := mode |}.
Proof.
  destruct kws; [congruence | reflexivity].
Qed.

Lemma extract_mode_only (args args' : Namespace) (w : env) (f : str) :
  search_parser args = search_parser args' ->
  extract args w f = extract args' w f.
Proof.
  intros H. unfold extract. now rewrite H.
Qed.

Lemma processed_mode_only (args args' : Namespace) (w : env) (l : list str) :
  search_parser args = search_parser args' ->
  processed args w l = processed args' w l.
Proof.
  intros H. induction l as [|f l IH]; simpl; [reflexivity|].
  now rewrite (extract_mode_only args args' w f H), IH.
Qed.

Lemma reported_cmd (kws : list str) (mode : bool) (w : env) :
  kws <> [] ->
  reported (cmd kws mode) w =
  filter (accepted {| keywords := kws; search_parser := mode |} w)
    (processed {| keywords := []; search_parser := mode |} w (sorted (glob_py w))).
Proof.
  intros H. rewrite reported_closed_form with (1 := parse_args_cmd kws mode H).
  f_equal. now apply processed_mode_only.
Qed.

Lemma accepted_app (K1 K2 : list str) (mode : bool) (w : env) (f : str) :
  accepted {| keywords := K1 ++ K2; search_parser := mode |} w f =
  accepted {| keywords := K1; search_parser := mode |} w f
  && accepted {| keywords := K2; search_parser := mode |} w f.
Proof.
  unfold accepted, _test_matching_keywords, np_all, text_of. simpl.
  now rewrite map_app, forallb_app.
Qed.

(** X2. The search is an intersection: with the keywords of two lists
    together, a script is reported exactly when it is reported for each
    list alone (same mode, same directory), whether or not the runs go
    to their end. *)
Theorem report_is_intersection (K1 K2 : list str) (mode : bool) (w : env) (f : str) :
  K1 <> [] -> K2 <> [] ->
  (In f (reported (cmd (K1 ++ K2) mode) w) <->
   In f (reported (cmd K1 mode) w) /\ In f (reported (cmd K2 mode) w)).
Proof.
  intros H1 H2.
  assert (H12 : K1 ++ K2 <> []) by (destruct K1; [congruence | discriminate]).
  rewrite !reported_cmd by assumption.
  rewrite !filter_In, accepted_app, andb_true_iff. tauto.
Qed.

Lemma report_is_intersection_witness :
  let f := lit "scil_denoise_image.py" in
  [lit "scil"] <> [] /\ [lit "denoise"] <> []
  /\ In f (reported (cmd [lit "scil"; lit "denoise"] false) demo_env)
  /\ In f (reported (cmd [lit "scil"] false) demo_env)
  /\ In f (reported (cmd [lit "denoise"] false) demo_env).
Proof.
  assert (H1 : [lit "scil"] <> []) by discriminate.
  assert (H2 : [lit "denoise"] <> []) by discriminate.
  assert (R : In (lit "scil_denoise_image.py")
                (reported (cmd [lit "scil"; lit "denoise"] false) demo_env))
    by (vm_compute; now left).
  split; [exact H1|]. split; [exact H2|]. split; [exact R|].
  exact (proj1 (report_is_intersection [lit "scil"] [lit "denoise"] false demo_env
                  (lit "scil_denoise_image.py") H1 H2) R).
Defined.

Lemma ci_substring_up_to_case (k k' t : str) :
  same_up_to_case k k' -> ci_substring k t -> ci_substring k' t.
Proof.
  unfold same_up_to_case. intros H [pre [m [post [Ht Hm]]]].
  exists pre, m, post. split; [exact Ht | congruence].
Qed.

Lemma test_smaller_keyword_set (K K' texts : list str) :
  (forall k, In k (map str_lower K') -> In k (map str_lower K)) ->
  _test_matching_keywords K texts = true ->
  _test_matching_keywords K' texts = true.
Proof.
  rewrite !test_matching_keywords_iff. intros H HK k' Hk'.
  assert (Hl : In (str_lower k') (map str_lower K)) by (apply H; now apply in_map).
  apply in_map_iff in Hl as [k [Hkk Hk]].
  destruct (HK k Hk) as [t [Ht Hc]]. exists t. split; [exact Ht|].
  now apply ci_substring_up_to_case with (k := k).
Qed.

Lemma test_same_keyword_set (K K' texts : list str) :
  (forall k, In k (map str_lower K) <-> In k (map str_lower K')) ->
  _test_matching_keywords K texts = _test_matching_keywords K' texts.
Proof.
  intros H.
  destruct (_test_matching_keywords K texts) eqn:A;
    destruct (_test_matching_keywords K' texts) eqn:B; try reflexivity.
  - rewrite (test_smaller_keyword_set K K' texts) in B; [discriminate | | exact A].
    intros k. apply H.
  - rewrite (test_smaller_keyword_set K' K texts) in A; [discriminate | | exact B].
    intros k. apply H.
Qed.

(** X3. Which scripts are reported, and in which order, depends on the
    keywords only as a set of words up to letter case: their order,
    their repetitions and their casing do not matter. *)
Theorem report_depends_on_keyword_set (K K' : list str) (mode : bool) (w : env) :
  K <> [] -> K' <> [] ->
  (forall k, In k (map str_lower K) <-> In k (map str_lower K')) ->
  reported (cmd K mode) w = reported (cmd K' mode) w.
Proof.
  intros HK HK' H. rewrite !reported_cmd by assumption.
  apply filter_ext. intros f. unfold accepted, text_of. simpl.
  now apply test_same_keyword_set.
Qed.

Lemma report_depends_on_keyword_set_witness :
  let K := [lit "scil"; lit "denoise"] in
  let K' := [lit "DENOISE"; lit "Scil"; lit "denoise"] in
  K <> [] /\ K' <> []
  /\ (forall k, In k (map str_lower K) <-> In k (map str_lower K'))
  /\ reported (cmd K false) demo_env = reported (cmd K' false) demo_env.
Proof.
  assert (H1 : [lit "scil"; lit "denoise"] <> []) by discriminate.
  assert (H2 : [lit "DENOISE"; lit "Scil"; lit "denoise"] <> []) by discriminate.
  assert (H : forall k,
            In k (map str_lower [lit "scil"; lit "denoise"]) <->
            In k (map str_lower [lit "DENOISE"; lit "Scil"; lit "denoise"])).
  { intros k. simpl. tauto. }
  split; [exact H1|]. split; [exact H2|]. split; [exact H|].
  exact (report_depends_on_keyword_set _ _ false demo_env H1 H2 H).
Defined.

(** ** What the substitutions do to a text *)

Lemma ci_substring_occurs (kw t : str) :
  ci_substring kw t -> exists i, occurs_at kw t i.
Proof.
  intros [pre [m [post [-> Hm]]]]. exists (length pre). split.
  - rewrite length_app. lia.
  - rewrite skipn_app, skipn_all, Nat.sub_diag. simpl. now exists m, post.
Qed.

Lemma wrapped_has_hit (segs : list seg) (i : nat) :
  wrapped_at segs i = true -> 1 <= hits segs.
Proof.
  intros H. destruct (hits segs) eqn:Z; [|lia].
  rewrite (no_hit_no_wrap segs i Z) in H. discriminate.
Qed.

(** A pass that finds the keyword adds at least one marker pair. *)
Lemma re_sub_grows (kw t : str) :
  ci_substring kw t -> length t + 13 <= length (re_sub (re_compile kw) t).
Proof.
  intros H. destruct kw as [|a kw'] eqn:K.
  - rewrite re_sub_empty_keyword, length_app.
    change (length (new_key [])) with 13.
    destruct t as [|c r]; [simpl; lia|].
    pose proof (re_sub_length [] (S (length r)) r (Nat.lt_succ_diag_r _)).
    cbn [length]. lia.
  - rewrite <- K in *. assert (Hk : kw <> []) by (rewrite K; discriminate).
    destruct (one_pass_wraps_leftmost kw Hk (S (length t)) t (Nat.lt_succ_diag_r _))
      as [segs [Hr [He [_ Hc]]]].
    destruct (ci_substring_occurs kw t H) as [i Hi].
    pose proof (wrapped_has_hit segs i (Hc i Hi)).
    rewrite Hr, render_length, He. lia.
Qed.



Lemma parse_args_keywords (argv : cmdline) (args : Namespace) :
  parse_args argv = Ok args -> exists k ks, keywords args = k :: ks.
Proof.
  unfold parse_args. destruct (positionals argv) as [|k ks]; [discriminate|].
  intros [= <-]. now exists k, ks.
Qed.

Lemma ci_substring_nil (k : str) : ci_substring k [] -> k = [].
Proof.
  intros [pre [m [post [H Hm]]]].
  symmetry in H. apply app_eq_nil in H as [_ H]. apply app_eq_nil in H as [-> _].
  destruct k; [reflexivity | discriminate].
Qed.

Lemma ci_substring_empty_keyword (t : str) : ci_substring [] t.
Proof. now exists [], [], t. Qed.

(** X5. Every block shows at least one highlighted match: for a
    reported script, the printed name and the printed text together are
    at least one marker pair (13 characters) longer than the name and
    the text (or the placeholder) they are made from. *)
Theorem every_block_shows_a_highlight (argv : cmdline) (w : env) (args : Namespace)
    (f : str) :
  parse_args argv = Ok args ->
  In f (reported argv w) ->
  length f + length (str_or (text_of args w f) PLACEHOLDER) + 13
  <= length (printed_name args f) + length (printed_text args w f).
Proof.
  intros P R.
  destruct (parse_args_keywords argv args P) as [k [ks K]].
  destruct (reported_accepted argv w args P f R) as [t [Ht A]].
  apply test_two_texts_iff in A. rewrite K in A.
  assert (T : text_of args w f = t) by (unfold text_of; now rewrite Ht).
  unfold printed_name, printed_text, printed_name_with, printed_text_with.
  rewrite T, K.
  change (subst_all re_sub (k :: ks) ?x)
    with (subst_all re_sub ks (re_sub (re_compile k) x)).
  pose proof (subst_all_length ks (re_sub (re_compile k) f)) as L1.
  pose proof (subst_all_length ks (re_sub (re_compile k) (str_or t PLACEHOLDER))) as L2.
  pose proof (re_sub_length k (S (length f)) f (Nat.lt_succ_diag_r _)) as G1.
  pose proof (re_sub_length k (S (length (str_or t PLACEHOLDER))) _
                (Nat.lt_succ_diag_r _)) as G2.
  assert (C : ci_substring k f \/ (t <> [] /\ ci_substring k t)).
  { destruct (A k (or_introl eq_refl)) as [H|H]; [now left|].
    destruct t as [|c t']; [|right; split; [discriminate | exact H]].
    left. apply ci_substring_nil in H. subst k. apply ci_substring_empty_keyword. }
  destruct C as [C|[N C]].
  - pose proof (re_sub_grows k f C). lia.
  - assert (S : str_or t PLACEHOLDER = t) by (destruct t; [congruence | reflexivity]).
    rewrite S in *. pose proof (re_sub_grows k t C). lia.
Qed.

Lemma every_block_shows_a_highlight_witness :
  let argv := fast [lit "scil"] in
  let args := {| keywords := [lit "scil"]; search_parser := false |} in
  let f := lit "scil_a.py" in
  parse_args argv = Ok args
  /\ In f (reported argv demo_env)
  /\ length f + length (str_or (text_of args demo_env f) PLACEHOLDER) + 13
     <= length (printed_name args f) + length (printed_text args demo_env f).
Proof.
  assert (R : In (lit "scil_a.py") (reported (fast [lit "scil"]) demo_env))
    by (vm_compute; now left).
  split; [reflexivity|]. split; [exact R|].
  exact (every_block_shows_a_highlight (fast [lit "scil"]) demo_env
           {| keywords := [lit "scil"]; search_parser := false |}
           (lit "scil_a.py") eq_refl R).
Defined.

(** ** The shape of the extracted docstring *)

Lemma split_lines_no_lf (s : str) :
  Forall (Forall (fun c => c <> LF)) (split_lines s).
Proof.
  induction s as [|c s IH]; simpl; [repeat constructor|].
  destruct (Ascii.eqb_spec c LF) as [->|N].
  - constructor; [constructor | exact IH].
  - destruct (split_lines s) as [|l ls]; [repeat constructor; exact N|].
    apply Forall_cons_iff in IH as [Hl Hls].
    constructor; [constructor; assumption | exact Hls].
Qed.

Lemma lstrip_forall (P : ascii -> Prop) (s : str) :
  Forall P s -> Forall P (lstrip s).
Proof.
  induction 1 as [|c s Hc H IH]; simpl; [constructor|].
  destruct (is_space c); [exact IH | now constructor].
Qed.

Lemma skipn_forall (P : ascii -> Prop) (n : nat) (s : str) :
  Forall P s -> Forall P (skipn n s).
Proof.
  intros H. rewrite <- (firstn_skipn n s) in H. now apply Forall_app in H.
Qed.

Lemma drop_leading_blank_forall (P : str -> Prop) (ls : list str) :
  Forall P ls -> Forall P (drop_leading_blank ls).
Proof.
  induction 1 as [|l ls Hl H IH]; simpl; [constructor|].
  destruct l; [exact IH | now constructor].
Qed.

Lemma drop_leading_blank_head (ls : list str) :
  drop_leading_blank ls = [] \/ hd [] (drop_leading_blank ls) <> [].
Proof.
  induction ls as [|l ls IH]; simpl; [now left|].
  destruct l; [exact IH | right; discriminate].
Qed.

Lemma drop_leading_blank_last (ls : list str) :
  last ls [] <> [] -> last (drop_leading_blank ls) [] = last ls [].
Proof.
  induction ls as [|l ls IH]; simpl; [reflexivity|].
  destruct l as [|c l].
  - destruct ls as [|l' ls']; [congruence|]. exact IH.
  - reflexivity.
Qed.

Lemma drop_trailing_blank_forall (P : str -> Prop) (ls : list str) :
  Forall P ls -> Forall P (drop_trailing_blank ls).
Proof.
  intros H. unfold drop_trailing_blank.
  now apply Forall_rev, drop_leading_blank_forall, Forall_rev.
Qed.

Lemma last_rev_hd (ls : list str) : last (rev ls) [] = hd [] ls.
Proof.
  destruct ls as [|l ls]; [reflexivity|]. simpl. now rewrite last_last.
Qed.

Lemma drop_trailing_blank_last (ls : list str) :
  drop_trailing_blank ls = [] \/ last (drop_trailing_blank ls) [] <> [].
Proof.
  unfold drop_trailing_blank.
  destruct (drop_leading_blank_head (rev ls)) as [H|H].
  - left. now rewrite H.
  - right. now rewrite last_rev_hd.
Qed.

(** The lines that [inspect.cleandoc] joins: none holds a newline, and
    when there are some, the first and the last are not empty. *)
Lemma join_ends (ls : list str) :
  Forall (Forall (fun c => c <> LF)) ls ->
  (ls = [] \/ hd [] ls <> []) ->
  (ls = [] \/ last ls [] <> []) ->
  ~ starts_with_newline (str_join [LF] ls) /\ ~ ends_with_newline (str_join [LF] ls).
Proof.
  intros F Hh Hl. split.
  - intros [r E]. destruct ls as [|l ls]; [discriminate|].
    destruct Hh as [Hh|Hh]; [discriminate|]. simpl in Hh.
    apply Forall_cons_iff in F as [Fl _].
    destruct l as [|c l]; [congruence|].
    apply Forall_cons_iff in Fl as [Hc _].
    destruct ls; simpl in E; injection E as E _; congruence.
  - destruct ls as [|l0 ls0]; [intros [r E]; destruct r; discriminate|].
    destruct Hl as [Hl|Hl]; [discriminate|].
    assert (X : exists pre c, str_join [LF] (l0 :: ls0) = pre ++ [c] /\ c <> LF).
    { clear Hh. revert l0 F Hl. induction ls0 as [|l1 ls1 IH]; intros l0 F Hl.
      - simpl in *. destruct (exists_last Hl) as [pre [c E]].
        exists pre, c. split; [exact E|].
        apply Forall_cons_iff in F as [Fl _]. rewrite E in Fl.
        apply Forall_app in Fl as [_ Fc]. now apply Forall_cons_iff in Fc as [Hc _].
      - apply Forall_cons_iff in F as [_ F].
        destruct (IH l1 F Hl) as [pre [c [E Hc]]].
        exists (l0 ++ [LF] ++ pre), c. split; [|exact Hc].
        change (str_join [LF] (l0 :: l1 :: ls1))
          with (l0 ++ [LF] ++ str_join [LF] (l1 :: ls1)).
        rewrite E. now rewrite <- !app_assoc. }
    destruct X as [pre [c [E Hc]]]. intros [r Er]. rewrite E in Er.
    apply app_inj_tail in Er as [_ Er]. congruence.
Qed.

Lemma cleandoc_ends (doc : str) :
  ~ starts_with_newline (inspect_cleandoc doc)
  /\ ~ ends_with_newline (inspect_cleandoc doc).
Proof.
  unfold inspect_cleandoc.
  pose proof (split_lines_no_lf (expandtabs doc)) as F.
  destruct (split_lines (expandtabs doc)) as [|first others] eqn:S.
  - apply join_ends; [constructor | now left | now left].
  - apply Forall_cons_iff in F as [Ff Fo].
    set (ls := lstrip first :: _).
    assert (Fl : Forall (Forall (fun c => c <> LF)) ls).
    { unfold ls. constructor; [now apply lstrip_forall|].
      destruct (margin_of (first :: others)); [|exact Fo].
      apply Forall_map. eapply Forall_impl; [|exact Fo].
      intros l Hl. now apply skipn_forall. }
    apply join_ends.
    + now apply drop_leading_blank_forall, drop_trailing_blank_forall.
    + apply drop_leading_blank_head.
    + destruct (drop_trailing_blank_last ls) as [H|H].
      * left. now rewrite H.
      * right. now rewrite drop_leading_blank_last.
Qed.

(** X6. The text extracted in fast mode never begins and never ends
    with a newline. *)
Theorem docstring_has_no_outer_newline (w : env) (script d : str) :
  _get_docstring w script = Ok d ->
  ~ starts_with_newline d /\ ~ ends_with_newline d.
Proof.
  unfold _get_docstring, ast_get_docstring.
  destruct (read_file w script) as [c|e]; [|discriminate].
  destruct (ast_parse w c) as [m|e]; [|discriminate].
  destruct (raw_docstring m) as [text|]; intros [= <-].
  - apply cleandoc_ends.
  - split; intros [r E]; [discriminate | destruct r; discriminate].
Qed.

Lemma docstring_has_no_outer_newline_witness :
  _get_docstring multiline_env (lit "scil_search.py") =
    Ok (lit "Search through scripts.")
  /\ ~ starts_with_newline (lit "Search through scripts.")
  /\ ~ ends_with_newline (lit "Search through scripts.").
Proof.
  assert (H : _get_docstring multiline_env (lit "scil_search.py") =
              Ok (lit "Search through scripts.")) by (vm_compute; reflexivity).
  split; [exact H|].
  exact (docstring_has_no_outer_newline multiline_env (lit "scil_search.py")
           (lit "Search through scripts.") H).
Defined.
